(** * mirror: the directory verification engine, the chunked file reader and
    the command-line driver, embedded from
    [src/mirror/utils.hpp] and [src/main.cpp]. *)

From stdpp Require Import base gmap sets list strings.
From Stdlib.Strings Require Import Byte Ascii.
From Equations Require Import Equations.

Local Open Scope string_scope.

(** ** Data model *)

(** [mirror::FileType] (declared in FileDB.hpp; main.cpp uses the member
    [file] and prints every other value as "dir"). *)
Module FileType.
Inductive t := file | dir.

#[global] Instance eq_dec : EqDecision t.
Proof. solve_decision. Defined.
End FileType.

#[global] Instance byte_eq_decision : EqDecision byte := byte_eq_dec.

(** Paths stored in the database are UTF-8 byte strings ([afc::U8String]);
    a [PathKey] compares them byte by byte, so both are [string] here. *)

(** Length of [FileRecord::md5Digest] (openssl's MD5_DIGEST_LENGTH). *)
Definition MD5_DIGEST_LENGTH : nat := 16.

(** [mirror::FileRecord], with the fields the two source files read. *)
Record FileRecord := mkFileRecord {
  type : FileType.t;
  fileSize : N;
  lastModifiedTS : Z;          (* what [.millis()] returns *)
  md5Digest : list byte
}.

#[global] Instance FileRecord_eq_dec : EqDecision FileRecord.
Proof. solve_decision. Defined.

(** [std::equal(a, a + MD5_DIGEST_LENGTH, e)] *)
Definition std_equal_md5 (a e : list byte) : bool :=
  bool_decide (take MD5_DIGEST_LENGTH a = take MD5_DIGEST_LENGTH e).

(** [mirror::DirFileMap] is [gmap string FileRecord] and [mirror::DirSet] is
    [gset string]. *)

(** ** The logger

    [afc::logger::logError] and [logDebug] take a heterogeneous argument
    list; an entry keeps the arguments as they were passed. *)
Inductive log_level := Debug | Error.

Inductive log_arg :=
| Lit (s : string)              (* a ["..."_s] literal *)
| CStr (s : string)             (* a [const char *] *)
| Chr (c : Ascii.ascii)               (* a single [char] *)
| Num (n : N)                   (* a file size *)
| ISODateTimeView (ts : Z)
| MD5View (d : list byte)
| Key (k : string)              (* a [PathKey] *)
| Range (s : string)            (* [std::make_pair(path, path + pathSize)] *)
| Type_ (t : FileType.t).

Record log_entry := LogEntry { level : log_level; args : list log_arg }.

#[global] Instance log_level_eq_dec : EqDecision log_level.
Proof. solve_decision. Defined.
#[global] Instance log_arg_eq_dec : EqDecision log_arg.
Proof. solve_decision. Defined.
#[global] Instance log_entry_eq_dec : EqDecision log_entry.
Proof. solve_decision. Defined.

(** ** Exceptions *)
Inductive exception :=
| ThrowInt (errno : Z)          (* [throw errno;] *)
| OpenFileError (errno : Z)     (* raised by [handleOpenFileError] *)
| ReadFileError (errno : Z)     (* raised by [handleReadFileError] *)
| StdException (what : string)  (* an object derived from [std::exception] *)
| CharPtr (msg : string)        (* a thrown [const char *] *)
| EmptyStack                    (* [top()]/[pop()] on an empty [std::stack] *)
| BadStream                     (* use of a [FILE *] that is not open *)
| AssertionFailed.              (* a failed [assert] *)

#[global] Instance exception_eq_dec : EqDecision exception.
Proof. solve_decision. Defined.

(** ** A state, log and exception monad

    A computation runs on a state [S], appends entries to the log, and either
    returns or throws.  The state reached and the entries written before a
    throw are kept. *)
Record outcome (S A : Type) := Outcome {
  emitted : list log_entry;
  final : S;
  result : exception + A
}.
Arguments Outcome {S A} _ _ _.
Arguments emitted {S A} _.
Arguments final {S A} _.
Arguments result {S A} _.

Definition M (S A : Type) : Type := S → outcome S A.

Definition ret {S A} (a : A) : M S A := λ s, Outcome [] s (inr a).

Definition bind {S A B} (m : M S A) (k : A → M S B) : M S B := λ s,
  let o := m s in
  match result o with
  | inl e => Outcome (emitted o) (final o) (inl e)
  | inr a =>
      let o' := k a (final o) in
      Outcome (emitted o ++ emitted o') (final o') (result o')
  end.

Definition throw {S A} (e : exception) : M S A := λ s, Outcome [] s (inl e).
Definition get {S} : M S S := λ s, Outcome [] s (inr s).
Definition put {S} (s : S) : M S unit := λ _, Outcome [] s (inr tt).
Definition logDebug {S} (a : list log_arg) : M S unit :=
  λ s, Outcome [LogEntry Debug a] s (inr tt).
Definition logError {S} (a : list log_arg) : M S unit :=
  λ s, Outcome [LogEntry Error a] s (inr tt).

#[global] Instance M_ret {S} : MRet (M S) := λ A, @ret S A.
#[global] Instance M_bind {S} : MBind (M S) := λ A B k m, @bind S A B m k.

(** [for (auto &x : xs) body(x)] *)
Definition for_each {S A} (body : A → M S unit) : list A → M S unit :=
  fix go xs :=
    match xs with
    | [] => ret tt
    | x :: xs' => bind (body x) (λ _, go xs')
    end.

(** Whether a computation returned. *)
Definition returned {S A} (o : outcome S A) : bool :=
  match result o with inr _ => true | inl _ => false end.

(** ** External collaborators

    The database ([FileDB.hpp]), the character-set conversions ([afc]) and
    [fillFileRecord] are declared but not defined in the sources at hand.
    They are taken as parameters.  The database is passed by non-const
    reference, so each query returns the database as it leaves it.  The two
    queries and the two conversions are taken as returning; only
    [fillFileRecord] can throw here.  A run in which a query or a conversion
    throws is outside this model, and no statement below is about which
    exceptions a verification can or cannot throw. *)
Class External := {
  FileDB : Type;
  getDirs : FileDB → FileDB * gset string;
  getFiles : FileDB → string → FileDB * gmap string FileRecord;
  convertToUtf8 : string → string;
  convertFromUtf8 : string → string;
  fillFileRecord : string → exception + FileRecord
}.

(** The contract of a read query (spec, section 6): the store is left as it
    was. *)
Class ReadOnlyQueries (X : External) : Prop := {
  getDirs_ro : ∀ db, (getDirs db).1 = db;
  getFiles_ro : ∀ db p, (getFiles db p).1 = db
}.

(** ** Paths *)

(** [std::string p(relDir); if (relDir[0] != '\0') p += '/'; p += name;] *)
Definition relative_path (relDir name : string) : string :=
  match relDir with
  | "" => name
  | _ => relDir +:+ "/" +:+ name
  end.

(** [(std::string(rootDir) + '/') + name] *)
Definition absolute_path (rootDir name : string) : string :=
  rootDir +:+ "/" +:+ name.

(** ** The tree walker *)

(** The observer of the walk: the template parameter [EventHandler] of
    [scanFiles]. *)
Class EventHandler (H : Type) := {
  dirStart : string → M H unit;
  dirEnd : string → M H unit;
  file : string → string → string → M H unit
}.

(** The live tree as [opendir] and [readdir] present it: opening a directory
    fails with an [errno] or yields its entries in iteration order; an entry
    has a [d_type] and a [d_name]. *)
Inductive dir :=
| OpenDirFail (errno : Z)
| OpenDirOk (entries : list dirent)
with dirent :=
| DT_REG (d_name : string)
| DT_DIR (d_name : string) (sub : dir)
| DT_other (d_type : Z) (d_name : string).

Definition EACCES : Z := 13.

(** The test that skips the entries [.] and [..]. *)
Definition is_dot_or_dotdot (name : string) : bool :=
  match name with
  | String "."%char "" => true
  | String "."%char (String "."%char "") => true
  | _ => false
  end.

(** [mirror::_helper::scanFiles]; [scanEntry] is the body of its [readdir]
    loop. *)
Fixpoint scanFiles `{EventHandler H} (rootDir relDir : string) (d : dir)
    {struct d} : M H unit :=
  bind (logDebug [Lit "Scanning '"; CStr rootDir; Lit "'..."]) (λ _,
  match d with
  | OpenDirFail errno =>
      if bool_decide (errno = EACCES)
      then logDebug [Lit "No access to '"; CStr rootDir; Chr "'"%char]
      else throw (ThrowInt errno)
  | OpenDirOk entries =>
      bind (dirStart relDir) (λ _,
      bind (for_each (scanEntry rootDir relDir) entries) (λ _,
      dirEnd relDir))
  end)
with scanEntry `{EventHandler H} (rootDir relDir : string) (e : dirent)
    {struct e} : M H unit :=
  match e with
  | DT_REG name => file rootDir relDir name
  | DT_DIR name sub =>
      if is_dot_or_dotdot name then ret tt
      else scanFiles (absolute_path rootDir name) (relative_path relDir name) sub
  | DT_other _ name =>
      logDebug [Lit "The file '"; CStr name;
                Lit "' is neither a directory or a regular file. Skipping it..."]
  end.

(** ** The verification observer: [EventHandler] inside [mirror::verifyDir] *)
Section VerifyDir.
Context {X : External}.

Record VerifyState := mkVerifyState {
  dbDirs : gset string;
  ctxs : list (gmap string FileRecord);    (* top of the stack first *)
  dbRef : FileDB
}.

(** [ctxs.top()] *)
Definition top : M VerifyState (gmap string FileRecord) := λ h,
  match ctxs h with
  | [] => throw EmptyStack h
  | c :: _ => ret c h
  end.

(** [ctxs.pop()] *)
Definition pop : M VerifyState unit := λ h,
  match ctxs h with
  | [] => throw EmptyStack h
  | _ :: rest => Outcome [] (mkVerifyState (dbDirs h) rest (dbRef h)) (inr tt)
  end.

(** [ctxs.top().erase(dbEntry)] for the entry found under [key] *)
Definition erase_top (key : string) : M VerifyState unit := λ h,
  match ctxs h with
  | [] => throw EmptyStack h
  | c :: rest =>
      Outcome [] (mkVerifyState (dbDirs h) (delete key c :: rest) (dbRef h)) (inr tt)
  end.

Definition verify_dirStart (relDir : string) : M VerifyState unit := λ h,
  let relDirU8 := convertToUtf8 relDir in
  let r := getFiles (dbRef h) relDirU8 in
  Outcome [] (mkVerifyState (dbDirs h ∖ {[relDirU8]}) (r.2 :: ctxs h) r.1) (inr tt).

Definition file_not_found (relDir : string) (e : string * FileRecord) : log_entry :=
  LogEntry Error [Lit "File not found in the file system: '";
                  CStr (relative_path relDir (convertFromUtf8 e.1)); Lit "'!"].

Definition verify_dirEnd (relDir : string) : M VerifyState unit :=
  bind top (λ c,
  bind (for_each (λ e, logError (args (file_not_found relDir e))) (map_to_list c)) (λ _,
  pop)).

Definition new_file_found (relativePath : string) : log_entry :=
  LogEntry Error [Lit "New file found in the file system: '"; CStr relativePath; Lit "'!"].

Definition size_mismatch (relativePath : string) (expected actual : FileRecord) : log_entry :=
  LogEntry Error [Lit "File size mismatch for the file '"; CStr relativePath;
                  Lit "'! DB size: "; Num (fileSize expected);
                  Lit ", file system size: "; Num (fileSize actual); Chr "."%char].

Definition timestamp_mismatch (relativePath : string) (expected actual : FileRecord) : log_entry :=
  LogEntry Error [Lit "File last modified timestamp mismatch for the file '"; CStr relativePath;
                  Lit "'! DB timestamp: "; ISODateTimeView (lastModifiedTS expected);
                  Lit ", file system timestamp: "; ISODateTimeView (lastModifiedTS actual);
                  Chr "."%char].

Definition digest_mismatch (relativePath : string) (expected actual : FileRecord) : log_entry :=
  LogEntry Error [Lit "File MD5 digest mismatch for the file '"; CStr relativePath;
                  Lit "'! DB MD5: '"; MD5View (md5Digest expected);
                  Lit "', file system MD5: '"; MD5View (md5Digest actual); Lit "'."].

(** [if (cond) logError(...)] *)
Definition log_if (cond : bool) (e : log_entry) : M VerifyState unit :=
  if cond then logError (args e) else ret tt.

Definition verify_file (rootDir relDir fileName : string) : M VerifyState unit :=
  bind (logDebug [Lit "Checking the file '"; CStr fileName; Lit "'..."]) (λ _,
  let absolutePath := absolute_path rootDir fileName in
  let relativePath := relative_path relDir fileName in
  let key := convertToUtf8 fileName in
  bind top (λ c,
  match c !! key with
  | None => logError (args (new_file_found relativePath))
  | Some expectedFileRecord =>
      match fillFileRecord absolutePath with
      | inl e => throw e
      | inr fileRecord =>
          bind (log_if (negb (bool_decide
                  (fileSize expectedFileRecord = fileSize fileRecord)))
                  (size_mismatch relativePath expectedFileRecord fileRecord)) (λ _,
          bind (log_if (negb (bool_decide
                  (lastModifiedTS expectedFileRecord = lastModifiedTS fileRecord)))
                  (timestamp_mismatch relativePath expectedFileRecord fileRecord)) (λ _,
          bind (log_if (negb (std_equal_md5 (md5Digest fileRecord)
                                            (md5Digest expectedFileRecord)))
                  (digest_mismatch relativePath expectedFileRecord fileRecord)) (λ _,
          erase_top key)))
      end
  end)).

#[global] Instance verify_handler : EventHandler VerifyState := {|
  dirStart := verify_dirStart;
  dirEnd := verify_dirEnd;
  file := verify_file
|}.

Definition dir_not_found (missingDir : string) : log_entry :=
  LogEntry Debug [Lit "DB dir not found in the file system: '"; Key missingDir; Lit "'..."].

(** [assert(eventHandler.ctxs.empty())] *)
Definition assert_ctxs_empty : M VerifyState unit := λ h,
  match ctxs h with
  | [] => ret tt h
  | _ => throw AssertionFailed h
  end.

(** What [verifyDir] does once the observer is constructed. *)
Definition verifyDir_body (rootDir : string) (live : dir) : M VerifyState unit :=
  bind (scanFiles rootDir "" live) (λ _,
  bind get (λ h,
  bind (for_each (λ missingDir, logDebug (args (dir_not_found missingDir)))
                 (elements (dbDirs h))) (λ _,
  assert_ctxs_empty))).

(** [mirror::verifyDir(rootDir, db, mismatchHandler)].  The state is the pair
    of the two reference parameters; [live] is the tree found at [rootDir].
    The constructor of the observer calls [db.getDirs(dbDirs)]. *)
Definition verifyDir {MismatchHandler : Type} (rootDir : string) (live : dir)
    : M (FileDB * MismatchHandler) unit := λ s,
  let r := getDirs s.1 in
  let o := verifyDir_body rootDir live (mkVerifyState r.2 [] r.1) in
  Outcome (emitted o) (dbRef (final o), s.2) (result o).
End VerifyDir.

(** ** The mismatch handler of main.cpp: [struct VerifyDirMismatchHandler]

    The struct has no fields; its methods only write to the log, so they run
    on any state.  A [(path, pathSize)] pair is the string it delimits. *)
Module VerifyDirMismatchHandler.
Definition TAB : string := String "009"%char "".
Definition LF_TAB : string := String "010"%char (String "009"%char "").

Definition fileNotFound {S} (type : FileType.t) (path : string) : M S unit :=
  logError [Type_ type; Lit " not found in the file system: '"; Range path; Lit "'!"].

Definition newFileFound {S} (type : FileType.t) (path : string) : M S unit :=
  logError [Lit "New ";
            (if bool_decide (type = FileType.file) then Lit "file" else Lit "dir");
            Lit " found in the file system: '"; Range path; Lit "'!"].

Definition type_mismatch (path : string) (expected actual : FileRecord) : log_entry :=
  LogEntry Error [Lit "File type mismatch for the file '"; Range path;
                  Lit "'! DB file type: '"; Type_ (type expected);
                  Lit "', file system file type: '"; Type_ (type actual); Lit "'."].

Definition mismatch_header (path : string) : log_entry :=
  LogEntry Error [Lit "Mismatch for the file '"; Range path; Lit "':"].

Definition size_lines (expected actual : FileRecord) : log_entry :=
  LogEntry Error [Lit (TAB +:+ "DB size: "); Num (fileSize expected);
                  Lit (LF_TAB +:+ "FS size: "); Num (fileSize actual)].

Definition timestamp_lines (expected actual : FileRecord) : log_entry :=
  LogEntry Error [Lit (TAB +:+ "DB last modified timestamp: ");
                  ISODateTimeView (lastModifiedTS expected);
                  Lit (LF_TAB +:+ "FS last modified timestamp: ");
                  ISODateTimeView (lastModifiedTS actual)].

Definition digest_lines (expected actual : FileRecord) : log_entry :=
  LogEntry Error [Lit (TAB +:+ "DB MD5 digest: '"); MD5View (md5Digest expected);
                  Lit ("'" +:+ LF_TAB +:+ "FS MD5 digest: '");
                  MD5View (md5Digest actual); Chr "'"%char].

Definition when {S} (cond : bool) (m : M S unit) : M S unit :=
  if cond then m else ret tt.

Definition checkFileMismatch {S} (path : string)
    (expectedFileRecord actualFileRecord : FileRecord) : M S bool :=
  if negb (bool_decide (type expectedFileRecord = type actualFileRecord)) then
    bind (logError (args (type_mismatch path expectedFileRecord actualFileRecord)))
         (λ _, ret false)
  else if bool_decide (type actualFileRecord = FileType.file) then
    let sizeMismatch :=
      negb (bool_decide (fileSize expectedFileRecord = fileSize actualFileRecord)) in
    let lastModMismatch :=
      negb (bool_decide (lastModifiedTS expectedFileRecord
                         = lastModifiedTS actualFileRecord)) in
    let digestMismatch :=
      negb (std_equal_md5 (md5Digest actualFileRecord) (md5Digest expectedFileRecord)) in
    let fullMatch := negb sizeMismatch && negb lastModMismatch && negb digestMismatch in
    bind (when (negb fullMatch)
            (bind (logError (args (mismatch_header path))) (λ _,
             bind (when sizeMismatch
                     (logError (args (size_lines expectedFileRecord actualFileRecord)))) (λ _,
             bind (when lastModMismatch
                     (logError (args (timestamp_lines expectedFileRecord actualFileRecord)))) (λ _,
             when digestMismatch
               (logError (args (digest_lines expectedFileRecord actualFileRecord))))))))
         (λ _, ret fullMatch)
  else ret true.
End VerifyDirMismatchHandler.

(** ** The chunked file reader: [openFile] and [processFile] *)
Module Stdio.
(** How the bytes of a file end: with end-of-file, or with a read error
    that sets [errno]. *)
Inductive ending := AtEOF | AtError (errno : Z).

(** A [FILE]: the bytes not yet read, how they end, the two indicators, and
    the [errno] with which [fclose] fails, if it does. *)
Record FILE := mkFILE {
  rest : list byte;
  ends : ending;
  feof : bool;
  ferror : bool;
  close_failure : option Z
}.

(** A file as [fopen] finds it: its bytes, how reading them ends, and the
    [errno] with which closing it fails, if it does. *)
Record image := mkImage {
  bytes : list byte;
  bytes_end : ending;
  close_errno : option Z
}.

(** The process: what [fopen] finds at each path (an [errno] when the file
    cannot be opened), the open streams by handle, and [errno]. *)
Record OS := mkOS {
  disk : string → Z + image;
  open_streams : gmap nat FILE;
  errno : Z
}.

(** [fread(buf, 1, count, f)]: a full read leaves the indicators alone, a
    short read sets the end-of-file or the error indicator; the result is the
    bytes stored in [buf], the stream after the call and [errno] if it was
    set. *)
Definition fread (count : nat) (f : FILE) : list byte * FILE * option Z :=
  if decide (count ≤ length (rest f))%nat then
    (take count (rest f),
     mkFILE (drop count (rest f)) (ends f) (feof f) (ferror f) (close_failure f), None)
  else
    match ends f with
    | AtEOF => (rest f, mkFILE [] AtEOF true (ferror f) (close_failure f), None)
    | AtError e => (rest f, mkFILE [] (AtError e) (feof f) true (close_failure f), Some e)
    end.

(** [std::fopen(path, "r")]: a new stream, positioned at the first byte,
    with both indicators clear. *)
Definition fopen (path : string) (os : OS) : option nat * OS :=
  match disk os path with
  | inl e => (None, mkOS (disk os) (open_streams os) e)
  | inr i =>
      let h := fresh (dom (open_streams os)) in
      let f := mkFILE (bytes i) (bytes_end i) false false (close_errno i) in
      (Some h, mkOS (disk os) (<[h := f]> (open_streams os)) (errno os))
  end.

(** [std::fclose(f)]: the stream is gone whether or not the call succeeds. *)
Definition fclose (h : nat) (os : OS) : Z * OS :=
  match open_streams os !! h with
  | Some f =>
      match close_failure f with
      | None => (0%Z, mkOS (disk os) (delete h (open_streams os)) (errno os))
      | Some e => ((-1)%Z, mkOS (disk os) (delete h (open_streams os)) e)
      end
  | None => ((-1)%Z, mkOS (disk os) (open_streams os) 9%Z)       (* EBADF *)
  end.
End Stdio.

(** The size of [buf] and of every [fread] request. *)
Definition BUFSIZE : nat := 4096.
Definition BUFSIZE_pos : (0 < BUFSIZE)%nat := Nat.lt_0_succ 4095.
#[global] Opaque BUFSIZE.

Section ProcessFile.
Import Stdio.
Context {A : Type}.

(** The template parameter [ChunkOp]: a callable with state [A], applied to
    the bytes [buf[0..n)]. *)
Variable chunkOp : list byte → M A unit.

(** What the read loop works on: the stream, [errno] and the state of
    [chunkOp]. *)
Record reader := mkReader { stream : FILE; err : Z; acc : A }.

Inductive iteration :=
| Next (log : list log_entry) (r : reader)
| Done (log : list log_entry) (r : reader) (res : exception + unit).

Section ReadLoop.
(** The loop for a buffer of [size] bytes; it ends because [size] is
    positive. *)
Variable size : nat.
Hypothesis size_pos : (0 < size)%nat.

(** One turn of [for (;;) { ... }]: [Next] goes round again, [Done] is
    the [break] or a throw. *)
Definition loop_body (r : reader) : iteration :=
  let '(buf, f, e) := fread size (stream r) in
  let errno' := default (err r) e in
  if bool_decide (length buf = size) then
    let o := chunkOp buf (acc r) in
    match result o with
    | inr _ => Next (emitted o) (mkReader f errno' (final o))
    | inl ex => Done (emitted o) (mkReader f errno' (final o)) (inl ex)
    end
  else if feof f then
    let o := chunkOp buf (acc r) in
    Done (emitted o) (mkReader f errno' (final o)) (result o)
  else
    (* handleReadFileError(errno) *)
    Done [] (mkReader f errno' (acc r)) (inl (ReadFileError errno')).

Equations read_loop (r : reader) : outcome reader unit
  by wf (length (rest (stream r))) lt :=
read_loop r with Logic.inspect (loop_body r) := {
  | exist _ (Next log r') Heq :=
      let o := read_loop r' in
      Outcome (log ++ emitted o) (final o) (result o);
  | exist _ (Done log r' res) _ := Outcome log r' res }.
Next Obligation.
  revert Heq. unfold loop_body, fread.
  destruct (decide (size ≤ length (rest (stream r)))%nat) as [Hle|Hgt].
  - rewrite bool_decide_true by (rewrite length_take; lia).
    destruct (result (chunkOp _ _)); intros Hb; inversion Hb; subst; simpl.
    rewrite length_drop. lia.
  - destruct (ends (stream r)); rewrite bool_decide_false by lia; simpl;
      try discriminate.
    destruct (feof (stream r)); discriminate.
Qed.
End ReadLoop.

(** [mirror::_helper::openFile]; the [mode] argument is not used, the file
    is always opened with ["r"]. *)
Definition openFile (path mode : string) : M OS nat := λ os,
  match fopen path os with
  | (Some h, os') => Outcome [] os' (inr h)
  | (None, os') => Outcome [] os' (inl (OpenFileError (errno os')))
  end.

(** [mirror::_helper::processFile] *)
Definition processFile (path : string) : M (OS * A) unit := λ s,
  let o := openFile path "r" s.1 in
  match result o with
  | inl ex => Outcome (emitted o) (final o, s.2) (inl ex)
  | inr h =>
      match open_streams (final o) !! h with
      | None => Outcome [] (final o, s.2) (inl BadStream)
      | Some f =>
          let l := read_loop BUFSIZE BUFSIZE_pos (mkReader f (errno (final o)) s.2) in
          let os1 := mkOS (disk (final o))
                          (<[h := stream (final l)]> (open_streams (final o)))
                          (err (final l)) in
          let c := fclose h os1 in
          match result l with
          | inl ex =>
              (* catch (...) { fclose; throw; } *)
              Outcome (emitted l ++
                       (if bool_decide (c.1 = 0%Z) then []
                        else [LogEntry Error [Lit "Unable to close the file '";
                                              CStr path; CStr "'."]]))
                      (c.2, acc (final l)) (inl ex)
          | inr _ =>
              Outcome (emitted l) (c.2, acc (final l))
                      (if bool_decide (c.1 = 0%Z) then inr tt
                       else inl (ThrowInt (errno c.2)))
          end
      end
  end.
End ProcessFile.

(** ** The command-line driver: [main] *)
Module Main.
Definition programName : string := "mirror".
Definition PROGRAM_NAME : string := "mirror".
Definition PROGRAM_VERSION : string := "0.0.1".

Inductive tool := undefined | createDB | verifyDir | mergeDir.

#[global] Instance tool_eq_dec : EqDecision tool.
Proof. solve_decision. Defined.

Definition chr (a : ascii) : Z := Z.of_nat (nat_of_ascii a).

(** The [options] table: long name and the value [getopt_long] returns. *)
Definition options : list (string * Z) :=
  [("tool", chr "t"); ("help", chr "h"); ("version", chr "v"); ("db", chr "d")].

(** One call of [getopt_long] that found an option: the value returned,
    [optarg], and [optionIndex] as the call leaves it. *)
Record getopt_call := mkGetopt { c : Z; optarg : string; optionIndex : Z }.

Inductive line := Cout (s : string) | Cerr (s : string).

(** What is outside the two source files: the database handle, the two
    tools as [main] calls them (with [strlen(src)] as second argument; the
    mismatch handler has no state), the converters, which thrown values the
    two handlers of [main] catch and the text they then print, and whether
    [assert] is compiled out. *)
Class Collaborators := {
  DB : Type;
  initConverters : exception + unit;
  utf16leToString_author : exception + string;
  FileDB_open : string → bool → exception + DB;
  FileDB_close : M DB unit;
  run_createDB : string → nat → M DB unit;
  run_verifyDir : string → nat → M DB unit;
  caught_by_main : exception → option string;
  NDEBUG : bool
}.

Definition printUsage (success : bool) (programName : string) : list line :=
  if negb success
  then [Cout ("Try '" +:+ programName +:+ " --help' for more information.")]
  else [Cout ("Usage: " +:+ programName +:+ " --tool=[TOOL TO USE] [OPTION]... SOURCE [DEST]");
        Cout "";
        Cout ("Report " +:+ programName +:+ " bugs to dzidzitop@vfemail.net")].

Definition printVersion `{Collaborators} : list line :=
  let author := match utf16leToString_author with
                | inr a => a
                | inl _ => "Dzmitry Liauchuk"
                end in
  [Cout (PROGRAM_NAME +:+ " " +:+ PROGRAM_VERSION);
   Cout ("Copyright (C) 2017 " +:+ author +:+ ".");
   Cout "License GPLv3+: GNU GPL version 3 or later <http://gnu.org/licenses/gpl.html>.";
   Cout "This is free software: you are free to change and redistribute it.";
   Cout "There is NO WARRANTY, to the extent permitted by law.";
   Cout "";
   Cout ("Written by " +:+ author +:+ ".")].

(** The locals the option loop assigns; [dbPath] starts uninitialised. *)
Record locals := mkLocals {
  t : tool;
  toolDefined : bool;
  dbPath : option string;
  dbDefined : bool
}.

Definition initial_locals : locals := mkLocals undefined false None false.

Inductive flow (A : Type) :=
| Go (a : A)                   (* execution goes on *)
| Return (code : Z)            (* [return code;] *)
| Throw (e : exception)
| Abort.                       (* a failed [assert] *)
Arguments Go {A} _.
Arguments Return {A} _.
Arguments Throw {A} _.
Arguments Abort {A}.

(** The body of the [switch (c)] for one option. *)
Definition handle_option `{Collaborators} (g : getopt_call) (l : locals)
    : list line * flow locals :=
  if bool_decide (c g = chr "d") then
    ([], Go (mkLocals (t l) (toolDefined l) (Some (optarg g)) true))
  else if bool_decide (c g = chr "h") then (printUsage true programName, Return 0)
  else if bool_decide (c g = chr "t") then
    if bool_decide (optarg g = "create-db")
    then ([], Go (mkLocals createDB true (dbPath l) (dbDefined l)))
    else if bool_decide (optarg g = "verify-dir")
    then ([], Go (mkLocals verifyDir true (dbPath l) (dbDefined l)))
    else if bool_decide (optarg g = "merge-dir")
    then ([], Go (mkLocals mergeDir true (dbPath l) (dbDefined l)))
    else (printUsage false PROGRAM_NAME, Return 1)
  else if bool_decide (c g = chr "v") then (printVersion, Return 0)
  else if bool_decide (c g = chr "?") then (printUsage false programName, Return 1)
  else
    ([Cerr ("Unhandled option: " +:+
            (if bool_decide (optionIndex g = (-1)%Z)
             then String "-" (String (ascii_of_nat (Z.to_nat (c g))) "")
             else "--" +:+ default "" (fst <$> options !! Z.to_nat (optionIndex g))))],
     Return 1).

(** The [while ((c = getopt_long(...)) != -1)] loop over the options found. *)
Fixpoint option_loop `{Collaborators} (gs : list getopt_call) (l : locals)
    : list line * flow locals :=
  match gs with
  | [] => ([], Go l)
  | g :: gs' =>
      match handle_option g l with
      | (out, Go l') => let r := option_loop gs' l' in ((out ++ r.1)%list, r.2)
      | r => r
      end
  end.

(** The checks between the option loop and the opening of the database. *)
Definition check_arguments (l : locals) (optind argc : Z) : list line * flow unit :=
  if bool_decide (optind = argc) then
    (Cerr "No SOURCE file/directory." :: printUsage false programName, Return 1)
  else if bool_decide (optind < argc - 2)%Z then
    (Cerr "Only SOURCE and DEST files/directories can be specified."
       :: printUsage false programName, Return 1)
  else if bool_decide (t l = mergeDir) && bool_decide (optind < argc - 1)%Z then
    (Cerr "SOURCE and DEST files/directories must be specified for merge-dir."
       :: printUsage false programName, Return 1)
  else if negb (toolDefined l) then
    (Cerr "No tool specified." :: printUsage false programName, Return 1)
  else if negb (dbDefined l) then
    (Cerr "No DB specified." :: printUsage false programName, Return 1)
  else ([], Go tt).

(** The [switch (t)] inside the inner [try]. *)
Definition run_tool `{Collaborators} (tl : tool) (src : string) (db : DB)
    : list log_entry * DB * flow unit :=
  let of_outcome (o : outcome DB unit) :=
    (emitted o, final o,
     match result o with inr _ => Go tt | inl e => Throw e end) in
  match tl with
  | createDB => of_outcome (run_createDB src (String.length src) db)
  | verifyDir => of_outcome (run_verifyDir src (String.length src) db)
  | mergeDir | undefined => ([], db, if NDEBUG then Go tt else Abort)
  end.

(** From [FileDB::open] to [return 0]. *)
Definition with_database `{Collaborators} (l : locals) (src : string)
    : list log_entry * flow unit :=
  match FileDB_open (default "" (dbPath l)) true with
  | inl e => ([], Throw e)
  | inr db =>
      match run_tool (t l) src db with
      | (log, db', Go _) =>
          let cl := FileDB_close db' in
          ((log ++ emitted cl)%list,
           match result cl with inr _ => Return 0 | inl e => Throw e end)
      | (log, db', Throw e) =>
          (* catch (...) { db.close(); throw; } *)
          let cl := FileDB_close db' in
          ((log ++ emitted cl)%list,
           match result cl with inr _ => Throw e | inl e' => Throw e' end)
      | (log, _, Return code) => (log, Return code)
      | (log, _, Abort) => (log, Abort)
      end
  end.

Inductive status :=
| Exit (code : Z)
| Terminate (e : exception)    (* an exception no handler of [main] catches *)
| Aborted.

Record run := mkRun { exit : status; console : list line; log : list log_entry }.

(** The two handlers of the function-try-block. *)
Definition finish `{Collaborators} (out : list line) (lg : list log_entry)
    (f : flow unit) : run :=
  match f with
  | Go _ => mkRun (Exit 0) out lg
  | Return code => mkRun (Exit code) out lg
  | Abort => mkRun Aborted out lg
  | Throw e =>
      match caught_by_main e with
      | Some text => mkRun (Exit 1) (out ++ [Cerr text])%list lg
      | None => mkRun (Terminate e) out lg
      end
  end.

(** [main]: [gs] are the options [getopt_long] finds, in order, and
    [optind] is its value when the option loop ends. *)
Definition main `{Collaborators} (argc : Z) (argv : list string)
    (gs : list getopt_call) (optind : Z) : run :=
  match initConverters with
  | inl e => finish [] [] (Throw e)
  | inr _ =>
      match option_loop gs initial_locals with
      | (out, Go l) =>
          match check_arguments l optind argc with
          | (out', Go _) =>
              let src := default "" (argv !! Z.to_nat optind) in
              let r := with_database l src in
              finish (out ++ out')%list r.1 r.2
          | (out', Return code) => finish (out ++ out')%list [] (Return code)
          | (out', Throw e) => finish (out ++ out')%list [] (Throw e)
          | (out', Abort) => finish (out ++ out')%list [] Abort
          end
      | (out, Return code) => finish out [] (Return code)
      | (out, Throw e) => finish out [] (Throw e)
      | (out, Abort) => finish out [] Abort
      end
  end.
End Main.

(** ** Reading the log *)

(** The literal a log entry starts with. *)
Definition headline (e : log_entry) : option string :=
  match args e with
  | Lit s :: _ => Some s
  | _ => None
  end.

Definition has_headline (s : string) (e : log_entry) : bool :=
  bool_decide (headline e = Some s).

Definition is_new_file_found : log_entry → bool :=
  has_headline "New file found in the file system: '".
Definition is_file_not_found : log_entry → bool :=
  has_headline "File not found in the file system: '".
Definition is_dir_not_found : log_entry → bool :=
  has_headline "DB dir not found in the file system: '".
Definition is_size_mismatch : log_entry → bool :=
  has_headline "File size mismatch for the file '".
Definition is_timestamp_mismatch : log_entry → bool :=
  has_headline "File last modified timestamp mismatch for the file '".
Definition is_digest_mismatch : log_entry → bool :=
  has_headline "File MD5 digest mismatch for the file '".
Definition is_kind_mismatch : log_entry → bool :=
  has_headline "File type mismatch for the file '".

Definition is_field_mismatch (e : log_entry) : bool :=
  is_kind_mismatch e || is_size_mismatch e || is_timestamp_mismatch e
  || is_digest_mismatch e.

(** How many entries of a log satisfy a test. *)
Definition count (p : log_entry → bool) (l : list log_entry) : nat :=
  length (filter (λ e, p e = true) l).

(** ** The live tree, read off without walking it *)

(** The names of the regular files of a directory, in iteration order: the
    entries the walker hands to [file]. *)
Definition regular_names (entries : list dirent) : list string :=
  omap (λ e, match e with DT_REG name => Some name | _ => None end) entries.


Section TreeSets.
Context {X : External}.

(** The database keys of the directories the walker opens. *)
Fixpoint entered (relDir : string) (d : dir) {struct d} : gset string :=
  match d with
  | OpenDirFail _ => ∅
  | OpenDirOk entries =>
      {[convertToUtf8 relDir]} ∪ ⋃ (entered_under relDir <$> entries)
  end
with entered_under (relDir : string) (e : dirent) {struct e} : gset string :=
  match e with
  | DT_DIR name sub =>
      if is_dot_or_dotdot name then ∅
      else entered (relative_path relDir name) sub
  | _ => ∅
  end.

(** The database keys of the directories that exist below an open
    directory, whether or not they can be opened. *)
Fixpoint existing (relDir : string) (d : dir) {struct d} : gset string :=
  match d with
  | OpenDirFail _ => ∅
  | OpenDirOk entries => ⋃ (existing_under relDir <$> entries)
  end
with existing_under (relDir : string) (e : dirent) {struct e} : gset string :=
  match e with
  | DT_DIR name sub =>
      if is_dot_or_dotdot name then ∅
      else {[convertToUtf8 (relative_path relDir name)]}
           ∪ existing (relative_path relDir name) sub
  | _ => ∅
  end.
End TreeSets.

(** ** A concrete store and file system, for examples *)
Module Fixtures.
Record SimpleDB := mkSimpleDB {
  dirs : gset string;
  files : gmap string (gmap string FileRecord)
}.

(** A store whose queries only read, identity conversions, and a file system
    in which every file has the metadata [fill] gives. *)
Definition simple (fill : string → exception + FileRecord) : External := {|
  FileDB := SimpleDB;
  getDirs db := (db, dirs db);
  getFiles db p := (db, default ∅ (files db !! p));
  convertToUtf8 s := s;
  convertFromUtf8 s := s;
  fillFileRecord := fill
|}.

Definition D1 : list byte := replicate 16 x01.
Definition D2 : list byte := replicate 16 x02.

Definition recorded_a : FileRecord := mkFileRecord FileType.file 10 5 D1.
Definition live_a : FileRecord := mkFileRecord FileType.file 12 5 D2.
Definition recorded_dir : FileRecord := mkFileRecord FileType.dir 0 0 D1.

Definition always (r : FileRecord) : string → exception + FileRecord := λ _, inr r.

(** A store that records the root, [a] and [a/b], and the file [a/x]. *)
Definition nested_store : SimpleDB :=
  mkSimpleDB {[""; "a"; "a/b"]} {["a" := {["x" := recorded_a]}]}.

(** A store that records the root and [a]. *)
Definition flat_store : SimpleDB := mkSimpleDB {[""; "a"]} ∅.

(** A live root that holds the directory [a], which cannot be opened. *)
Definition unreadable_a : dir := OpenDirOk [DT_DIR "a" (OpenDirFail EACCES)].


(** A live root with two regular files, a readable subdirectory holding a
    file, and a symbolic link. *)
Definition mixed_entries : list dirent :=
  [DT_REG "n"; DT_DIR "." (OpenDirFail 0); DT_DIR "a" (OpenDirOk [DT_REG "x"]);
   DT_other 10 "lnk"; DT_REG "m"].

(** The recorder of a test: a mismatch handler that keeps the calls it
    receives. *)
Inductive handler_call :=
| FileNotFound (type : FileType.t) (path : string)
| NewFileFound (type : FileType.t) (path : string)
| CheckFileMismatch (path : string) (expected actual : FileRecord).

(** A process in which every path names the same two-byte file. *)
Definition two_bytes : Stdio.image := Stdio.mkImage [x01; x02] Stdio.AtEOF None.
Definition one_file : Stdio.OS := Stdio.mkOS (λ _, inr two_bytes) ∅ 0%Z.

(** An accumulator that keeps the chunks it is fed. *)
Definition keep_chunk (a : list (list byte)) (c : list byte) : list (list byte) :=
  a ++ [c].

(** Tools that report one mismatch each and return; the database is a
    counter of the calls made on it. *)
Definition reporting_tools : Main.Collaborators := {|
  Main.DB := nat;
  Main.initConverters := inr tt;
  Main.utf16leToString_author := inl (StdException "no converter");
  Main.FileDB_open := λ _ _, inr 0;
  Main.FileDB_close := λ db, Outcome [] (S db) (inr tt);
  Main.run_createDB := λ _ _ db, Outcome [] (S db) (inr tt);
  Main.run_verifyDir := λ src _ db,
    Outcome [LogEntry Error [Lit "Mismatch for the file '"; Range src; Lit "':"]]
            (S db) (inr tt);
  Main.caught_by_main := λ e,
    match e with
    | StdException what => Some what
    | CharPtr msg => Some msg
    | _ => None
    end;
  Main.NDEBUG := false
|}.

Definition verify_command_line : list Main.getopt_call :=
  [Main.mkGetopt (Main.chr "t") "verify-dir" 0; Main.mkGetopt (Main.chr "d") "files.db" 3].
End Fixtures.

(** ** What a reader of a file is expected to be fed

    The chunks of [n] bytes a byte sequence starts with, and the bytes left
    after them. *)
Definition full_chunks (n : nat) (bs : list byte) : list (list byte) :=
  (λ i, take n (drop (i * n) bs)) <$> seq 0 (length bs / n).

Definition final_chunk (n : nat) (bs : list byte) : list byte :=
  drop (length bs / n * n) bs.

(** The chunks of a file that ends as [e]: the full chunks, and the final
    partial chunk when the bytes end with end-of-file. *)
Definition chunks_fed (bs : list byte) (e : Stdio.ending) : list (list byte) :=
  full_chunks BUFSIZE bs ++
  match e with
  | Stdio.AtEOF => [final_chunk BUFSIZE bs]
  | Stdio.AtError _ => []
  end.

(** A chunk operation that folds [op] over the chunks and never throws. *)
Definition folding {A} (op : A → list byte → A) : list byte → M A unit :=
  λ buf a, Outcome [] (op a buf) (inr tt).

(** ** What a visit is expected to write *)
Section Expected.
Context {X : External}.

Definition checking (fileName : string) : log_entry :=
  LogEntry Debug [Lit "Checking the file '"; CStr fileName; Lit "'..."].

(** The mismatch entries for a pair of records, in the order size,
    timestamp, digest. *)
Definition field_mismatches (relativePath : string) (expected actual : FileRecord)
    : list log_entry :=
  (if bool_decide (fileSize expected = fileSize actual) then []
   else [size_mismatch relativePath expected actual]) ++
  (if bool_decide (lastModifiedTS expected = lastModifiedTS actual) then []
   else [timestamp_mismatch relativePath expected actual]) ++
  (if std_equal_md5 (md5Digest actual) (md5Digest expected) then []
   else [digest_mismatch relativePath expected actual]).

(** The top expectation without the records of the given file names. *)
Definition erase_names (names : list string) (c : gmap string FileRecord)
    : gmap string FileRecord :=
  foldl (λ m name, delete (convertToUtf8 name) m) c names.

Definition erase_in_top (names : list string) (stack : list (gmap string FileRecord))
    : list (gmap string FileRecord) :=
  match stack with
  | [] => []
  | c :: below => erase_names names c :: below
  end.

Definition scanning (rootDir : string) : log_entry :=
  LogEntry Debug [Lit "Scanning '"; CStr rootDir; Lit "'..."].

(** What a part of the walk does to the observer when it returns: it
    removes [keys] from the directory set and the records of [names] from
    the top expectation; and it never writes a missing-directory entry. *)
Definition walks (keys : gset string) (names : list string)
    (m : M VerifyState unit) : Prop :=
  ∀ h, (result (m h) = inr tt →
          dbDirs (final (m h)) = dbDirs h ∖ keys
          ∧ ctxs (final (m h)) = erase_in_top names (ctxs h))
       ∧ Forall (λ e, is_dir_not_found e = false) (emitted (m h)).

(** A part of the walk that hands the database back as it got it. *)
Definition keeps_db (m : M VerifyState unit) : Prop :=
  ∀ h, dbRef (final (m h)) = dbRef h.

(** Two observers that differ at most in the database they refer to. *)
Definition similar (h h' : VerifyState) : Prop :=
  dbDirs h = dbDirs h' ∧ ctxs h = ctxs h'.

(** Two databases that give the same expectation for each directory in
    [keys]. *)
Definition agree (keys : gset string) (db db' : FileDB) : Prop :=
  ∀ k, k ∈ keys → (getFiles db k).2 = (getFiles db' k).2.

(** A part of the walk that reads the database only through the
    expectations of the directories in [keys]. *)
Definition blind (keys : gset string) (m : M VerifyState unit) : Prop :=
  ∀ h h', similar h h' → agree keys (dbRef h) (dbRef h') →
    emitted (m h) = emitted (m h') ∧ result (m h) = result (m h')
    ∧ similar (final (m h)) (final (m h')).

(** The observer as the constructor in [verifyDir] leaves it. *)
Definition initial_observer (db : FileDB) : VerifyState :=
  mkVerifyState (getDirs db).2 [] (getDirs db).1.
End Expected.

(** ** The walker seen from its observer *)

(** An entry for the directory itself or for its parent. *)
Definition is_self_or_parent (e : dirent) : bool :=
match e with
| DT_DIR name _ => bool_decide (name = "." ∨ name = "..")
| _ => false
end.

(** An entry the walker passes over without a word to the observer: the
    directory itself and its parent, an entry that is neither a regular file
    nor a directory, and a directory that cannot be opened for lack of
    access. *)
Definition passed_over (e : dirent) : bool :=
match e with
| DT_REG _ => false
| DT_other _ _ => true
| DT_DIR name sub =>
    bool_decide (name = "." ∨ name = "..")
    || match sub with
       | OpenDirFail errno => bool_decide (errno = EACCES)
       | OpenDirOk _ => false
       end
end.

(** The calls an observer receives. *)
Inductive call :=
| DirStart (relDir : string)
| DirEnd (relDir : string)
| File (rootDir relDir fileName : string).

(** An observer that keeps the calls it receives, oldest first, and never
    throws. *)
Definition record_call (c : call) : M (list call) unit :=
λ s, Outcome [] (s ++ [c])%list (inr tt).

Definition recorder : EventHandler (list call) := {|
  dirStart relDir := record_call (DirStart relDir);
  dirEnd relDir := record_call (DirEnd relDir);
  file rootDir relDir fileName := record_call (File rootDir relDir fileName)
|}.

(** Replays a list of calls on the stack of the directories that are open,
    innermost first: a directory is opened by [DirStart]; a [File] and a
    [DirEnd] must name the innermost open directory; [DirEnd] closes it.  The
    result is the stack after the calls, or [None] when a call is out of
    place. *)
Fixpoint nesting (calls : list call) (open : list string) : option (list string) :=
match calls with
| [] => Some open
| DirStart relDir :: rest => nesting rest (relDir :: open)
| File _ relDir _ :: rest =>
    match open with
    | innermost :: _ =>
        if bool_decide (innermost = relDir) then nesting rest open else None
    | [] => None
    end
| DirEnd relDir :: rest =>
    match open with
    | innermost :: outer =>
        if bool_decide (innermost = relDir) then nesting rest outer else None
    | [] => None
    end
end.

(** A computation of the recording observer that only appends calls, and
    whose calls fit the stack [open] of open directories: replaying them
    succeeds, and gives [open] back when the computation returns. *)
Definition respects (open : list string) (m : M (list call) unit) : Prop :=
∀ s, ∃ new, final (m s) = (s ++ new)%list
  ∧ is_Some (nesting new open)
  ∧ (result (m s) = inr tt → nesting new open = Some open).

(** ** Files found as recorded *)
Section FoundAsRecorded.
Context {X : External}.

(** The live record agrees with the recorded one in the three fields
    compared. *)
Definition same_fields (expected actual : FileRecord) : Prop :=
fileSize expected = fileSize actual
∧ lastModifiedTS expected = lastModifiedTS actual
∧ take MD5_DIGEST_LENGTH (md5Digest actual) = take MD5_DIGEST_LENGTH (md5Digest expected).

(** The file [name] of the directory at [rootDir] is recorded in [c] and
    is found as recorded. *)
Definition unchanged_file (rootDir : string) (c : gmap string FileRecord)
  (name : string) : Prop :=
∃ expected actual,
  c !! convertToUtf8 name = Some expected
  ∧ fillFileRecord (absolute_path rootDir name) = inr actual
  ∧ same_fields expected actual.
End FoundAsRecorded.

(** ** More examples *)
Module MoreFixtures.
(** A store that records the root with the single file [old]. *)
Definition renamed_store : Fixtures.SimpleDB :=
Fixtures.mkSimpleDB {[""]} {["" := {["old" := Fixtures.recorded_a]}]}.

(** A file system in which no file can be opened. *)
Definition unreadable : string → exception + FileRecord :=
λ _, inl (OpenFileError 13).

(** An observer that has entered a directory with the single record
    [a.txt]. *)
Definition in_directory (X : External) (db : @FileDB X) : VerifyState :=
mkVerifyState ∅ [{["a.txt" := Fixtures.recorded_a]}] db.
End MoreFixtures.

(** The entry [processFile] writes when closing fails while an exception
    passes. *)
Definition unable_to_close (path : string) : log_entry :=
LogEntry Error [Lit "Unable to close the file '"; CStr path; CStr "'."].

(** ** More files for the reader *)
Module ReaderFixtures.
(** No file can be opened: [fopen] fails with [ENOENT]. *)
Definition no_files : Stdio.OS := Stdio.mkOS (λ _, inl 2%Z) ∅ 0%Z.

(** A two-byte file whose [fclose] fails with [EIO]. *)
Definition failing_close : Stdio.image :=
Stdio.mkImage [x01; x02] Stdio.AtEOF (Some 5%Z).
Definition one_failing_close : Stdio.OS :=
Stdio.mkOS (λ _, inr failing_close) ∅ 0%Z.

(** A chunk operation that throws on every chunk. *)
Definition always_throws (ex : exception) : list byte → M nat unit :=
λ _ a, Outcome [] (S a) (inl ex).

(** An empty file. *)
Definition empty_file : Stdio.OS :=
Stdio.mkOS (λ _, inr (Stdio.mkImage [] Stdio.AtEOF None)) ∅ 0%Z.
End ReaderFixtures.

(** ** What the mismatch handler is expected to write for two files *)

(** The lines for the fields that differ, in the order size, timestamp,
    digest. *)
Definition handler_lines (expected actual : FileRecord) : list log_entry :=
(if bool_decide (fileSize expected = fileSize actual) then []
 else [VerifyDirMismatchHandler.size_lines expected actual]) ++
(if bool_decide (lastModifiedTS expected = lastModifiedTS actual) then []
 else [VerifyDirMismatchHandler.timestamp_lines expected actual]) ++
(if std_equal_md5 (md5Digest actual) (md5Digest expected) then []
 else [VerifyDirMismatchHandler.digest_lines expected actual]).

(** ** More command lines *)
Module MainFixtures.
(** Tools that throw: the walk throws a [std::exception], closing the
    database returns. *)
Definition throwing_tools : Main.Collaborators := {|
  Main.DB := nat;
  Main.initConverters := inr tt;
  Main.utf16leToString_author := inl (StdException "no converter");
  Main.FileDB_open := λ _ _, inr 0;
  Main.FileDB_close := λ db, Outcome [LogEntry Debug [Lit "closed"]] (S db) (inr tt);
  Main.run_createDB := λ _ _ db, Outcome [] db (inl (StdException "disk full"));
  Main.run_verifyDir := λ _ _ db, Outcome [] db (inl (ThrowInt 5));
  Main.caught_by_main := λ e,
    match e with
    | StdException what => Some what
    | CharPtr msg => Some msg
    | _ => None
    end;
  Main.NDEBUG := false
|}.

Definition merge_command_line : list Main.getopt_call :=
[Main.mkGetopt (Main.chr "t") "merge-dir" 0; Main.mkGetopt (Main.chr "d") "files.db" 3].

Definition help_option : Main.getopt_call := Main.mkGetopt (Main.chr "h") "" (-1).
End MainFixtures.

(** ** The paths the walker hands to its observer *)

(** The path of the directory [relDir] below [root]. *)
Definition joined (root relDir : string) : string :=
match relDir with
| "" => root
| _ => root +:+ "/" +:+ relDir
end.

(** Every directory the walker can descend into has a name. *)
Fixpoint named (d : dir) {struct d} : bool :=
match d with
| OpenDirFail _ => true
| OpenDirOk entries => forallb named_entry entries
end
with named_entry (e : dirent) {struct e} : bool :=
match e with
| DT_DIR name sub => negb (bool_decide (name = "")) && named sub
| _ => true
end.

(** A [file] call for the walk of [root] names the directory by its
    relative path and by the path that leads to it from [root]. *)
Definition paths_agree (root : string) (c : call) : Prop :=
match c with
| File rootDir relDir _ => rootDir = joined root relDir
| _ => True
end.

(** A computation of the recording observer that only appends calls that
    satisfy [P]. *)
Definition sends (P : call → Prop) (m : M (list call) unit) : Prop :=
∀ s, ∃ new, final (m s) = (s ++ new)%list ∧ Forall P new.

Module MoreMainFixtures.
Definition unknown_tool : Main.getopt_call := Main.mkGetopt (Main.chr "t") "sync-dir" 0.
End MoreMainFixtures.

(** ** The reports of one directory *)








Section Quiet.
Context {X : External}.

End Quiet.

Module AccountingFixtures.
End AccountingFixtures.

(** * Properties *)

#[local] Set Warnings "-clear-no-such-hyp".
Local Open Scope nat_scope.
Local Open Scope list_scope.

(** ** The monad *)

Lemma bind_throw {S A B} (m : M S A) (k : A → M S B) s e :
  result (m s) = inl e →
  bind m k s = Outcome (emitted (m s)) (final (m s)) (inl e).
Proof. intros Hr. unfold bind. by rewrite Hr. Qed.

Lemma bind_return {S A B} (m : M S A) (k : A → M S B) s a :
  result (m s) = inr a →
  bind m k s = Outcome (emitted (m s) ++ emitted (k a (final (m s))))
                       (final (k a (final (m s))))
                       (result (k a (final (m s)))).
Proof. intros Hr. unfold bind. by rewrite Hr. Qed.

Lemma bind_run {S A B} (m : M S A) (k : A → M S B) s l s' a :
  m s = Outcome l s' (inr a) →
  bind m k s = Outcome (l ++ emitted (k a s')) (final (k a s')) (result (k a s')).
Proof. intros Hm. unfold bind. by rewrite Hm. Qed.

Lemma bind_run_throw {S A B} (m : M S A) (k : A → M S B) s l s' e :
  m s = Outcome l s' (inl e) →
  bind m k s = Outcome l s' (inl e).
Proof. intros Hm. unfold bind. by rewrite Hm. Qed.

Lemma returned_inr {S A} (o : outcome S A) :
  returned o = true ↔ ∃ a, result o = inr a.
Proof.
  unfold returned. destruct (result o) as [e|a]; split; try done.
  - by intros [a Ha].
  - eauto.
Qed.

Lemma bind_returned {S A B} (m : M S A) (k : A → M S B) s :
  returned (bind m k s) = true →
  ∃ a, result (m s) = inr a ∧ returned (k a (final (m s))) = true.
Proof.
  unfold bind, returned. destruct (result (m s)) as [e|a]; simpl; [done|eauto].
Qed.


Lemma for_each_nil {S A} (body : A → M S unit) : for_each body [] = ret tt.
Proof. reflexivity. Qed.

Lemma for_each_cons {S A} (body : A → M S unit) x xs :
  for_each body (x :: xs) = bind (body x) (λ _, for_each body xs).
Proof. reflexivity. Qed.

Lemma for_each_log {S A} (f : A → log_entry) (l : list A) (s : S) :
  for_each (λ x, logError (args (f x))) l s = Outcome (LogEntry Error ∘ args ∘ f <$> l) s (inr tt)
  ∧ for_each (λ x, logDebug (args (f x))) l s = Outcome (LogEntry Debug ∘ args ∘ f <$> l) s (inr tt).
Proof.
  induction l as [|x l [IHe IHd]]; [done|].
  rewrite !for_each_cons. unfold bind. simpl. rewrite IHe, IHd. done.
Qed.

Lemma count_app p l1 l2 : count p (l1 ++ l2) = count p l1 + count p l2.
Proof. unfold count. by rewrite filter_app, length_app. Qed.

Lemma count_cons p e l :
  count p (e :: l) = (if p e then 1 else 0) + count p l.
Proof.
  unfold count. rewrite filter_cons. destruct (p e) eqn:He.
  - by rewrite decide_True.
  - by rewrite decide_False by (by destruct (p e)).
Qed.

Lemma count_nil p : count p [] = 0.
Proof. done. Qed.

(** ** Visiting one file *)
Section VisitFile.
Context {X : External}.

Lemma verify_dirEnd_emitted relDir h c below :
  ctxs h = c :: below →
  verify_dirEnd relDir h =
    Outcome (file_not_found relDir <$> map_to_list c)
            (mkVerifyState (dbDirs h) below (dbRef h)) (inr tt).
Proof.
  intros Hc. unfold verify_dirEnd.
  rewrite (bind_run top _ h [] h c) by (unfold top; by rewrite Hc).
  erewrite bind_run by apply for_each_log.
  unfold pop. rewrite Hc. simpl. by rewrite app_nil_r.
Qed.

(** C1: a recorded file whose live size and digest differ from the record
    while the timestamp agrees is reported by exactly two field-mismatch
    entries, the size one and then the digest one; the visit reports neither
    a new file nor a missing file, and it removes the record from the
    expectation, so that leaving the directory reports only the other
    records.  The kind of the record plays no part. *)
Theorem file_size_and_digest_differ
    (rootDir relDir fileName : string) (h : VerifyState)
    (c : gmap string FileRecord) (below : list (gmap string FileRecord))
    (expected actual : FileRecord) :
  ctxs h = c :: below →
  c !! convertToUtf8 fileName = Some expected →
  fillFileRecord (absolute_path rootDir fileName) = inr actual →
  fileSize expected ≠ fileSize actual →
  take MD5_DIGEST_LENGTH (md5Digest actual)
    ≠ take MD5_DIGEST_LENGTH (md5Digest expected) →
  lastModifiedTS expected = lastModifiedTS actual →
  let o := verify_file rootDir relDir fileName h in
  let p := relative_path relDir fileName in
  result o = inr tt
  ∧ filter (λ e, is_field_mismatch e = true) (emitted o)
    = [size_mismatch p expected actual; digest_mismatch p expected actual]
  ∧ filter (λ e, level e = Error) (emitted o)
    = [size_mismatch p expected actual; digest_mismatch p expected actual]
  ∧ count is_new_file_found (emitted o) = 0
  ∧ count is_file_not_found (emitted o) = 0
  ∧ ctxs (final o) = delete (convertToUtf8 fileName) c :: below
  ∧ ∀ d, emitted (verify_dirEnd d (final o))
         = file_not_found d <$> map_to_list (delete (convertToUtf8 fileName) c).
Proof.
  intros Hc Hl Hf Hsize Hdig Hts o p.
  assert (Ho : o = Outcome
                 [LogEntry Debug [Lit "Checking the file '"; CStr fileName; Lit "'..."];
                  size_mismatch p expected actual; digest_mismatch p expected actual]
                 (mkVerifyState (dbDirs h) (delete (convertToUtf8 fileName) c :: below)
                                (dbRef h))
                 (inr tt)).
  { subst o p. unfold verify_file, bind, logDebug, top. simpl. rewrite Hc. simpl.
    rewrite Hl, Hf. unfold log_if, std_equal_md5.
    rewrite (bool_decide_false _ Hsize), (bool_decide_true _ Hts),
      (bool_decide_false _ Hdig).
    simpl. unfold erase_top. rewrite Hc. reflexivity. }
  rewrite Ho. cbn [result emitted final ctxs].
  split_and!; try reflexivity.
  intros d. by erewrite verify_dirEnd_emitted.
Qed.
End VisitFile.

Lemma file_size_and_digest_differ_witness :
  let X := Fixtures.simple (Fixtures.always Fixtures.live_a) in
  let h := mkVerifyState ∅ [{["a.txt" := Fixtures.recorded_a]}]
                         (Fixtures.mkSimpleDB ∅ ∅) in
  let o := verify_file "root" "" "a.txt" h in
  result o = inr tt
  ∧ filter (λ e, is_field_mismatch e = true) (emitted o)
    = [size_mismatch "a.txt" Fixtures.recorded_a Fixtures.live_a;
       digest_mismatch "a.txt" Fixtures.recorded_a Fixtures.live_a].
Proof.
  intros X h o.
  pose proof (file_size_and_digest_differ (X := X) "root" "" "a.txt" h
                {["a.txt" := Fixtures.recorded_a]} []
                Fixtures.recorded_a Fixtures.live_a) as H.
  destruct H as (H1 & H2 & _).
  - reflexivity.
  - reflexivity.
  - reflexivity.
  - simpl. discriminate.
  - vm_compute. discriminate.
  - reflexivity.
  - split; [exact H1 | exact H2].
Defined.

(** ** The mismatch handler and the walker-side comparison *)

(** Given an expected and an actual record of different kinds,
    [checkFileMismatch] writes exactly one entry, the kind mismatch, writes
    none of the size, timestamp and digest lines, leaves its state alone and
    answers that the records do not match. *)
Lemma checkFileMismatch_kind_differs {S : Type} (path : string)
    (expected actual : FileRecord) (s : S) :
  type expected ≠ type actual →
  let o := VerifyDirMismatchHandler.checkFileMismatch path expected actual s in
  emitted o = [VerifyDirMismatchHandler.type_mismatch path expected actual]
  ∧ count is_kind_mismatch (emitted o) = 1
  ∧ (VerifyDirMismatchHandler.size_lines expected actual ∉ emitted o)
  ∧ (VerifyDirMismatchHandler.timestamp_lines expected actual ∉ emitted o)
  ∧ (VerifyDirMismatchHandler.digest_lines expected actual ∉ emitted o)
  ∧ result o = inr false
  ∧ final o = s.
Proof.
  intros Hk o. subst o. unfold VerifyDirMismatchHandler.checkFileMismatch.
  rewrite (bool_decide_false _ Hk). simpl.
  unfold bind, logError. simpl.
  split_and!; try reflexivity.
  all: intros Hin; apply list_elem_of_singleton in Hin; discriminate Hin.
Qed.

(** C3, as stated, fails on the walker-side visit: for a record of kind
    directory and a live regular file, [verify_file] writes no kind mismatch
    and does write the size, timestamp and digest mismatches. *)
Lemma visit_kind_differs_counterexample :
  let X := Fixtures.simple (Fixtures.always Fixtures.live_a) in
  let h := mkVerifyState ∅ [{["a" := Fixtures.recorded_dir]}]
                         (Fixtures.mkSimpleDB ∅ ∅) in
  let o := verify_file "root" "" "a" h in
  type Fixtures.recorded_dir ≠ type Fixtures.live_a
  ∧ ¬ (count is_kind_mismatch (emitted o) = 1
       ∧ count is_size_mismatch (emitted o) = 0
       ∧ count is_timestamp_mismatch (emitted o) = 0
       ∧ count is_digest_mismatch (emitted o) = 0).
Proof.
  split; [simpl; discriminate|].
  vm_compute. intros [H _]. discriminate H.
Qed.

(** ** The mismatch handler is never called *)

(** [verifyDir] is generic in the handler and makes no use of it: the
    handler comes back as it went in, and log and result are the same
    whatever handler is passed. *)
Lemma verifyDir_ignores_handler {X : External} {MH MH' : Type}
    (rootDir : string) (live : dir) (db : FileDB) (mh : MH) (mh' : MH') :
  let o := verifyDir rootDir live (db, mh) in
  let o' := verifyDir rootDir live (db, mh') in
  (final o).2 = mh ∧ emitted o = emitted o' ∧ result o = result o'
  ∧ (final o).1 = (final o').1.
Proof. done. Qed.

(** C4 (the code at the failing input): the store records the root and no
    files, the live root holds the regular file [a].  The walk ends normally;
    the new file is written to the log as text by the walker's own observer,
    and the recording handler has received no call. *)
Theorem verifyDir_reports_without_handler :
  let X := Fixtures.simple (Fixtures.always Fixtures.live_a) in
  let db := Fixtures.mkSimpleDB {[""]} ∅ in
  let o := verifyDir (MismatchHandler := list Fixtures.handler_call)
                     "root" (OpenDirOk [DT_REG "a"]) (db, []) in
  emitted o = [LogEntry Debug [Lit "Scanning '"; CStr "root"; Lit "'..."];
               LogEntry Debug [Lit "Checking the file '"; CStr "a"; Lit "'..."];
               new_file_found "a"]
  ∧ result o = inr tt
  ∧ (final o).2 = []
  ∧ emitted (VerifyDirMismatchHandler.newFileFound FileType.file "a" tt)
    ≠ [new_file_found "a"].
Proof. vm_compute. split_and!; try reflexivity. discriminate. Qed.

(** ** The chunked reader *)

Lemma full_chunks_short (n : nat) (bs : list byte) :
  length bs < n → full_chunks n bs = [] ∧ final_chunk n bs = bs.
Proof.
  intros Hlt. unfold full_chunks, final_chunk.
  rewrite Nat.div_small by done. done.
Qed.

Lemma full_chunks_long (n : nat) (bs : list byte) :
  0 < n → n ≤ length bs →
  full_chunks n bs = take n bs :: full_chunks n (drop n bs)
  ∧ final_chunk n bs = final_chunk n (drop n bs).
Proof.
  intros Hn Hle. unfold full_chunks, final_chunk. rewrite length_drop.
  assert (Hdiv : length bs / n = S ((length bs - n) / n)).
  { replace (length bs) with ((length bs - n) + 1 * n) at 1 by lia.
    rewrite Nat.div_add by lia. lia. }
  rewrite Hdiv. split.
  - rewrite <- cons_seq, fmap_cons. simpl. f_equal.
    rewrite <- fmap_S_seq, <- list_fmap_compose.
    apply list_fmap_ext. intros _ i _. simpl.
    rewrite drop_drop. done.
  - rewrite drop_drop. f_equal; lia.
Qed.

(** The full chunks have [n] bytes each, the final chunk has fewer, and
    together they are the whole sequence. *)
Lemma chunks_partition (n : nat) (bs : list byte) :
  0 < n →
  Forall (λ c, length c = n) (full_chunks n bs)
  ∧ length (final_chunk n bs) < n
  ∧ concat (full_chunks n bs) ++ final_chunk n bs = bs.
Proof.
  intros Hn. remember (length bs) as k eqn:Hk. revert bs Hk.
  induction k as [k IH] using lt_wf_ind. intros bs Hk.
  destruct (decide (n ≤ length bs)) as [Hle|Hgt].
  - destruct (full_chunks_long n bs Hn Hle) as [-> ->].
    destruct (IH (length (drop n bs))) with (bs := drop n bs) as (IH1 & IH2 & IH3);
      [rewrite length_drop; lia | done |].
    split_and!; [|done|].
    + constructor; [|done]. rewrite length_take. lia.
    + simpl. rewrite <- app_assoc, IH3. apply take_drop.
  - destruct (full_chunks_short n bs) as [-> ->]; [lia|].
    split_and!; [constructor | lia | done].
Qed.

Lemma BUFSIZE_value : BUFSIZE = 4096.
Proof. with_strategy transparent [BUFSIZE] reflexivity. Qed.

Section ProcessFileProofs.
Import Stdio.
Context {A : Type}.
Variable size : nat.
Hypothesis size_pos : 0 < size.

Lemma read_loop_step (chunkOp : list byte → M A unit) (r : reader) :
  read_loop chunkOp size size_pos r =
    match loop_body chunkOp size r with
    | Next log r' =>
        let o := read_loop chunkOp size size_pos r' in
        Outcome (log ++ emitted o) (final o) (result o)
    | Done log r' res => Outcome log r' res
    end.
Proof.
  funelim (read_loop chunkOp size size_pos r);
    match goal with H : loop_body _ _ _ = _ |- _ => by rewrite H end.
Qed.

(** The loop on a stream whose end-of-file indicator is clear, with a chunk
    operation that does not throw. *)
Lemma read_loop_folding (op : A → list byte → A) (r : reader) :
  feof (stream r) = false →
  let o := read_loop (folding op) size size_pos r in
  emitted o = []
  ∧ acc (final o)
    = fold_left op (full_chunks size (rest (stream r)) ++
                    match ends (stream r) with
                    | AtEOF => [final_chunk size (rest (stream r))]
                    | AtError _ => []
                    end) (acc r)
  ∧ result o = match ends (stream r) with
               | AtEOF => inr tt
               | AtError e => inl (ReadFileError e)
               end.
Proof.
  remember (length (rest (stream r))) as k eqn:Hk. revert r Hk.
  induction k as [k IH] using lt_wf_ind. intros [f e a] Hk Hfeof. simpl in *.
  rewrite read_loop_step. unfold loop_body, fread. simpl.
  destruct (decide (size ≤ length (rest f))) as [Hle|Hgt].
  - rewrite bool_decide_true by (rewrite length_take; lia). simpl.
    destruct (full_chunks_long size (rest f)) as [-> ->]; [lia|done|].
    edestruct (IH (length (drop size (rest f))))
      with (r := mkReader (mkFILE (drop size (rest f)) (ends f) (feof f) (ferror f)
                                  (close_failure f)) e (op a (take size (rest f))))
      as (IH1 & IH2 & IH3); [rewrite length_drop; lia | done | done |].
    simpl in *. rewrite IH1, IH2, IH3. done.
  - destruct (full_chunks_short size (rest f)) as [-> ->]; [lia|].
    destruct (ends f) as [|e']; rewrite bool_decide_false by lia; simpl.
    + done.
    + rewrite Hfeof. done.
Qed.

(** The loop does not change the way closing the stream ends. *)
Lemma read_loop_close_failure (chunkOp : list byte → M A unit) (r : reader) :
  close_failure (stream (final (read_loop chunkOp size size_pos r)))
  = close_failure (stream r).
Proof.
  remember (length (rest (stream r))) as k eqn:Hk. revert r Hk.
  induction k as [k IH] using lt_wf_ind. intros [f e a] Hk. simpl in *.
  rewrite read_loop_step. unfold loop_body, fread. simpl.
  destruct (decide (size ≤ length (rest f))) as [Hle|Hgt].
  - rewrite bool_decide_true by (rewrite length_take; lia).
    destruct (result (chunkOp _ a)); simpl; [done|].
    erewrite IH; [done| |done]. simpl. rewrite length_drop. lia.
  - destruct (ends f) as [|e']; rewrite bool_decide_false by lia; simpl.
    + done.
    + destruct (feof f); done.
Qed.
End ProcessFileProofs.

Section ProcessFileTheorems.
Import Stdio.
Context {A : Type}.

(** A short read that leaves the end-of-file indicator clear is a read that
    runs into the error the bytes end with. *)
Lemma fread_short_not_eof (count : nat) (f : FILE) :
  feof f = false →
  let '(buf, f', _) := fread count f in
  (length buf ≠ count ∧ feof f' = false)
  ↔ (length (rest f) < count ∧ ∃ e, ends f = AtError e).
Proof.
  intros Hfeof. unfold fread.
  destruct (decide (count ≤ length (rest f))) as [Hle|Hgt].
  - simpl. rewrite length_take. split; intros [? ?]; lia.
  - destruct (ends f) as [|e]; simpl.
    + split; [intros [_ ?]; done | intros [_ [? ?]]; done].
    + split; [intros _; split; [lia|eauto] | intros _; split; [lia|done]].
Qed.

(** C7: for a file that can be opened, with a chunk operation that folds
    [op] and does not throw, [processFile] feeds the accumulator the
    successive 4096-byte chunks of the content and then, when the bytes end
    with end-of-file, the final chunk of fewer than 4096 bytes; these chunks
    are the whole content.  It throws the read failure exactly when the
    bytes end with an error instead of end-of-file, that is when a short
    read leaves the end-of-file indicator clear; the chunk cut short by the
    error is not fed.  At end-of-file it returns once the stream is
    closed. *)
Theorem processFile_feeds_chunks (op : A → list byte → A) (path : string)
    (os : OS) (a : A) (i : image) :
  disk os path = inr i →
  let o := processFile (folding op) path (os, a) in
  BUFSIZE = 4096
  ∧ (final o).2 = fold_left op (chunks_fed (bytes i) (bytes_end i)) a
  ∧ Forall (λ c, length c = BUFSIZE) (full_chunks BUFSIZE (bytes i))
  ∧ length (final_chunk BUFSIZE (bytes i)) < BUFSIZE
  ∧ concat (full_chunks BUFSIZE (bytes i)) ++ final_chunk BUFSIZE (bytes i) = bytes i
  ∧ (∀ e, result o = inl (ReadFileError e) ↔ bytes_end i = AtError e)
  ∧ (bytes_end i = AtEOF → close_errno i = None → result o = inr tt).
Proof.
  intros Hdisk o.
  destruct (chunks_partition BUFSIZE (bytes i)) as (Hfull & Hlast & Hcat);
    [apply BUFSIZE_pos|].
  split_and!; [apply BUFSIZE_value | | done | done | done | |].
  all: subst o; unfold processFile, openFile, fopen; simpl; rewrite Hdisk; simpl;
    rewrite lookup_insert_eq;
    set (r := mkReader _ _ _);
    destruct (read_loop_folding BUFSIZE BUFSIZE_pos op r eq_refl) as (Hlog & Hacc & Hres);
    pose proof (read_loop_close_failure BUFSIZE BUFSIZE_pos (folding op) r) as Hclose;
    unfold fclose; simpl; rewrite lookup_insert_eq; simpl in *;
    rewrite Hres.
  - rewrite Hclose.
    destruct (bytes_end i), (close_errno i); simpl; exact Hacc.
  - intros e. rewrite Hclose.
    destruct (bytes_end i) as [|e'], (close_errno i); simpl;
      split; intros; congruence.
  - intros Hend Hcl. rewrite Hclose, Hend, Hcl. done.
Qed.

(** C8: whatever the chunk operation does and however the call ends, the
    streams open when [processFile] returns or throws are the streams that
    were open when it was called: the stream it opened is closed again (and
    when the file cannot be opened there is no stream to close). *)
Theorem processFile_releases_stream (chunkOp : list byte → M A unit)
    (path : string) (os : OS) (a : A) :
  open_streams (final (processFile chunkOp path (os, a))).1 = open_streams os.
Proof.
  unfold processFile, openFile, fopen. simpl.
  destruct (disk os path) as [e|i]; simpl; [done|].
  rewrite lookup_insert_eq.
  set (h := fresh (dom (open_streams os))).
  assert (Hfresh : open_streams os !! h = None).
  { apply not_elem_of_dom. apply is_fresh. }
  set (l := read_loop chunkOp _ _ _).
  assert (Hc : ∀ f0 f1 d e,
             open_streams (fclose h (mkOS d (<[h := f1]> (<[h := f0]> (open_streams os)))
                                         e)).2 = open_streams os).
  { intros f0 f1 d e. unfold fclose. simpl. rewrite lookup_insert_eq.
    destruct (close_failure f1); simpl;
      by rewrite !delete_insert_eq, delete_id. }
  destruct (result l); simpl; apply Hc.
Qed.
End ProcessFileTheorems.

Lemma processFile_feeds_chunks_witness :
  (final (processFile (folding Fixtures.keep_chunk) "f" (Fixtures.one_file, []))).2
  = fold_left Fixtures.keep_chunk (chunks_fed [x01; x02] Stdio.AtEOF) [].
Proof.
  apply (processFile_feeds_chunks Fixtures.keep_chunk "f" Fixtures.one_file []
           Fixtures.two_bytes).
  reflexivity.
Defined.

(** ** The exit status *)
Section ExitStatus.
Import Main.
Context {C : Collaborators}.

(** C9: when the command line selects create or verify and passes the
    checks, the database opens, the walk returns and the database closes,
    [main] exits with status 0, and its log is what the walk and the close
    wrote, whatever mismatches that contains. *)
Theorem main_exit_status_0 (argc optind : Z) (argv : list string)
    (gs : list getopt_call) (out out' : list line) (l : locals) (db : DB) :
  initConverters = inr tt →
  option_loop gs initial_locals = (out, Go l) →
  check_arguments l optind argc = (out', Go tt) →
  t l = createDB ∨ t l = verifyDir →
  FileDB_open (default "" (dbPath l)) true = inr db →
  let src := default "" (argv !! Z.to_nat optind) in
  let walk := match t l with
              | createDB => run_createDB src (String.length src) db
              | _ => run_verifyDir src (String.length src) db
              end in
  returned walk = true →
  returned (FileDB_close (final walk)) = true →
  exit (main argc argv gs optind) = Exit 0
  ∧ log (main argc argv gs optind)
    = emitted walk ++ emitted (FileDB_close (final walk)).
Proof.
  intros Hinit Hopts Hargs Htool Hopen src walk.
  assert (Hrun : run_tool (t l) src db
                 = (emitted walk, final walk,
                    match result walk with inr _ => Go tt | inl e => Throw e end)).
  { subst walk. unfold run_tool. by destruct Htool as [-> | ->]. }
  intros Hwalk Hclose.
  apply returned_inr in Hwalk as [[] Hwalk].
  apply returned_inr in Hclose as [[] Hclose].
  unfold main. rewrite Hinit, Hopts, Hargs. fold src.
  unfold with_database. rewrite Hopen, Hrun, Hwalk. simpl.
  rewrite Hclose. done.
Qed.
End ExitStatus.

Lemma main_exit_status_0_witness :
  Main.exit (Main.main (H := Fixtures.reporting_tools) 4
               ["mirror"; "--tool=verify-dir"; "--db=files.db"; "tree"]
               Fixtures.verify_command_line 3) = Main.Exit 0
  ∧ Main.log (Main.main (H := Fixtures.reporting_tools) 4
               ["mirror"; "--tool=verify-dir"; "--db=files.db"; "tree"]
               Fixtures.verify_command_line 3)
    = [LogEntry Error [Lit "Mismatch for the file '"; Range "tree"; Lit "':"]].
Proof.
  apply (main_exit_status_0 (C := Fixtures.reporting_tools) 4 3
           ["mirror"; "--tool=verify-dir"; "--db=files.db"; "tree"]
           Fixtures.verify_command_line [] []
           (Main.mkLocals Main.verifyDir true (Some "files.db") true) 0).
  - reflexivity.
  - reflexivity.
  - reflexivity.
  - right. reflexivity.
  - reflexivity.
  - reflexivity.
  - reflexivity.
Defined.

(** ** Induction on the live tree *)
Section TreeInduction.
Variables (P : dir → Prop) (Q : dirent → Prop).
Hypothesis P_fail : ∀ errno, P (OpenDirFail errno).
Hypothesis P_ok : ∀ entries, Forall Q entries → P (OpenDirOk entries).
Hypothesis Q_reg : ∀ name, Q (DT_REG name).
Hypothesis Q_dir : ∀ name sub, P sub → Q (DT_DIR name sub).
Hypothesis Q_other : ∀ d_type name, Q (DT_other d_type name).

Fixpoint dir_tree_ind (d : dir) : P d :=
  match d with
  | OpenDirFail errno => P_fail errno
  | OpenDirOk entries =>
      P_ok entries
        ((fix go (es : list dirent) : Forall Q es :=
            match es with
            | [] => @List.Forall_nil _ Q
            | e :: es' => @List.Forall_cons _ Q e es' (dirent_tree_ind e) (go es')
            end) entries)
  end
with dirent_tree_ind (e : dirent) : Q e :=
  match e with
  | DT_REG name => Q_reg name
  | DT_DIR name sub => Q_dir name sub (dir_tree_ind sub)
  | DT_other d_type name => Q_other d_type name
  end.

Lemma dir_dirent_ind : (∀ d, P d) ∧ (∀ e, Q e).
Proof. split; [exact dir_tree_ind | exact dirent_tree_ind]. Qed.
End TreeInduction.

(** ** The three callbacks of the verification observer *)
Section Callbacks.
Context {X : External}.

Lemma verify_dirStart_run relDir h :
  verify_dirStart relDir h =
    Outcome [] (mkVerifyState (dbDirs h ∖ {[convertToUtf8 relDir]})
                  ((getFiles (dbRef h) (convertToUtf8 relDir)).2 :: ctxs h)
                  (getFiles (dbRef h) (convertToUtf8 relDir)).1) (inr tt).
Proof. reflexivity. Qed.

Lemma verify_dirEnd_empty_stack relDir h :
  ctxs h = [] → verify_dirEnd relDir h = Outcome [] h (inl EmptyStack).
Proof.
  intros Hc. unfold verify_dirEnd.
  apply bind_run_throw. unfold top. by rewrite Hc.
Qed.

Lemma verify_file_empty_stack rootDir relDir fileName h :
  ctxs h = [] →
  verify_file rootDir relDir fileName h
  = Outcome [checking fileName] h (inl EmptyStack).
Proof.
  intros Hc. unfold verify_file.
  erewrite bind_run by reflexivity.
  erewrite bind_run_throw by (unfold top; by rewrite Hc). done.
Qed.

(** What a visit does, case by case. *)
Lemma verify_file_run rootDir relDir fileName h c below :
  ctxs h = c :: below →
  verify_file rootDir relDir fileName h =
    match c !! convertToUtf8 fileName with
    | None =>
        Outcome [checking fileName; new_file_found (relative_path relDir fileName)]
                h (inr tt)
    | Some expected =>
        match fillFileRecord (absolute_path rootDir fileName) with
        | inl e => Outcome [checking fileName] h (inl e)
        | inr actual =>
            Outcome (checking fileName
                       :: field_mismatches (relative_path relDir fileName) expected actual)
                    (mkVerifyState (dbDirs h)
                       (delete (convertToUtf8 fileName) c :: below) (dbRef h))
                    (inr tt)
        end
    end.
Proof.
  intros Hc. unfold verify_file.
  erewrite bind_run by reflexivity.
  erewrite (bind_run top) by (unfold top; by rewrite Hc).
  destruct (c !! convertToUtf8 fileName) as [expected|]; [|done].
  destruct (fillFileRecord _) as [e|actual]; [done|].
  unfold field_mismatches, log_if.
  destruct (bool_decide (fileSize expected = fileSize actual));
    destruct (bool_decide (lastModifiedTS expected = lastModifiedTS actual));
    destruct (std_equal_md5 _ _);
    cbn [negb]; unfold bind, erase_top, logError, ret;
    cbn [result final emitted]; rewrite Hc; reflexivity.
Qed.
End Callbacks.

(** ** The walk *)
Section Walk.
Context {X : External}.

Lemma scanFiles_fail rootDir relDir errno (h : VerifyState) :
  scanFiles rootDir relDir (OpenDirFail errno) h =
    if bool_decide (errno = EACCES)
    then Outcome [scanning rootDir;
                  LogEntry Debug [Lit "No access to '"; CStr rootDir; Chr "'"%char]]
                 h (inr tt)
    else Outcome [scanning rootDir] h (inl (ThrowInt errno)).
Proof. simpl. unfold bind. simpl. by destruct (bool_decide _). Qed.

Lemma scanFiles_ok rootDir relDir entries :
  scanFiles (H := VerifyState) rootDir relDir (OpenDirOk entries) =
    bind (logDebug (args (scanning rootDir))) (λ _,
    bind (verify_dirStart relDir) (λ _,
    bind (for_each (scanEntry rootDir relDir) entries) (λ _,
    verify_dirEnd relDir))).
Proof. reflexivity. Qed.

Lemma erase_in_top_app names1 names2 stack :
  erase_in_top names2 (erase_in_top names1 stack)
  = erase_in_top (names1 ++ names2) stack.
Proof.
  destruct stack as [|c below]; [done|]. simpl.
  unfold erase_names. by rewrite foldl_app.
Qed.

Lemma walks_bind keys1 keys2 names1 names2 (m1 m2 : M VerifyState unit) :
  walks keys1 names1 m1 → walks keys2 names2 m2 →
  walks (keys1 ∪ keys2) (names1 ++ names2) (bind m1 (λ _, m2)).
Proof.
  intros H1 H2 h. destruct (H1 h) as [H1s H1l].
  unfold bind. destruct (result (m1 h)) as [e|[]] eqn:Hr; simpl.
  - split; [done|exact H1l].
  - destruct (H2 (final (m1 h))) as [H2s H2l].
    destruct H1s as [Hd1 Hc1]; [done|]. split.
    + intros Hr2. destruct (H2s Hr2) as [Hd2 Hc2]. split.
      * rewrite Hd2, Hd1. set_solver.
      * by rewrite Hc2, Hc1, erase_in_top_app.
    + by apply Forall_app.
Qed.

Lemma walks_ret : walks ∅ [] (ret tt).
Proof.
  intros h. split; [|constructor]. intros _. simpl. split; [set_solver|].
  by destruct (ctxs h).
Qed.

Lemma walks_for_each {A} (body : A → M VerifyState unit)
    (keys : A → gset string) (names : A → list string) (xs : list A) :
  Forall (λ x, walks (keys x) (names x) (body x)) xs →
  walks (⋃ (keys <$> xs)) (concat (names <$> xs)) (for_each body xs).
Proof.
  induction 1 as [|x xs Hx _ IH]; [apply walks_ret|].
  rewrite for_each_cons. simpl. by apply walks_bind.
Qed.

Lemma walks_verify_file rootDir relDir name :
  walks ∅ [name] (verify_file rootDir relDir name).
Proof.
  intros h. destruct (ctxs h) as [|c below] eqn:Hc.
  - rewrite verify_file_empty_stack by done. simpl. split; [done|].
    by repeat constructor.
  - rewrite (verify_file_run _ _ _ _ _ _ Hc).
    destruct (c !! convertToUtf8 name) as [expected|] eqn:Hl.
    + destruct (fillFileRecord _) as [e|actual]; simpl.
      * split; [done|]. by repeat constructor.
      * split; [intros _; split; [set_solver|done]|].
        constructor; [done|]. unfold field_mismatches.
        repeat case_match; by repeat constructor.
    + simpl. split; [|by repeat constructor].
      intros _. split; [set_solver|]. rewrite Hc.
      unfold erase_names. simpl. by rewrite delete_id.
Qed.

Lemma regular_names_concat entries :
  concat ((λ e, regular_names [e]) <$> entries) = regular_names entries.
Proof.
  induction entries as [|e es IH]; [done|].
  rewrite fmap_cons. cbn [concat]. rewrite IH. by destruct e.
Qed.

Lemma erase_in_top_nil stack : erase_in_top [] stack = stack.
Proof. by destruct stack. Qed.

Lemma walks_scan :
  (∀ d rootDir relDir, walks (entered relDir d) [] (scanFiles rootDir relDir d))
  ∧ (∀ e rootDir relDir,
       walks (entered_under relDir e) (regular_names [e]) (scanEntry rootDir relDir e)).
Proof.
  apply dir_dirent_ind.
  - intros errno rootDir relDir h. rewrite scanFiles_fail.
    destruct (bool_decide _); simpl.
    + split; [|by repeat constructor].
      intros _. split; [set_solver|by rewrite erase_in_top_nil].
    + split; [done|by repeat constructor].
  - intros entries IH rootDir relDir h. rewrite scanFiles_ok.
    erewrite bind_run by reflexivity.
    erewrite bind_run by apply verify_dirStart_run.
    set (h1 := mkVerifyState _ _ _).
    assert (Hloop : walks (⋃ (entered_under relDir <$> entries))
                          (regular_names entries)
                          (for_each (scanEntry rootDir relDir) entries)).
    { rewrite <- regular_names_concat. apply walks_for_each.
      eapply Forall_impl; [exact IH|]. intros e He. apply He. }
    destruct (Hloop h1) as [Hs Hl].
    destruct (result (for_each _ entries h1)) as [e|[]] eqn:Hr.
    + rewrite (bind_throw _ _ _ _ Hr). cbn [emitted final result].
      split; [done|]. constructor; [done|]. exact Hl.
    + rewrite (bind_return _ _ _ _ Hr).
      destruct Hs as [Hd Hc]; [done|]. simpl in Hc.
      rewrite (verify_dirEnd_emitted _ _ _ _ Hc). cbn [emitted final result dbDirs ctxs].
      split.
      * intros _. split; [|by rewrite erase_in_top_nil].
        rewrite Hd. simpl. set_solver.
      * constructor; [done|]. simpl. apply Forall_app. split; [exact Hl|].
        apply Forall_fmap, Forall_forall. by intros [??] _.
  - intros name rootDir relDir. apply walks_verify_file.
  - intros name sub IH rootDir relDir. simpl.
    destruct (is_dot_or_dotdot name); [apply walks_ret|apply IH].
  - intros d_type name rootDir relDir h. simpl. split; [|by repeat constructor].
    intros _. split; [set_solver|by rewrite erase_in_top_nil].
Qed.
End Walk.

(** ** After the walk *)
Section AfterWalk.
Context {X : External}.

(** [verifyDir] on a walk that returns: the assertion holds, and the log
    ends with one entry for each directory left in the set. *)
Lemma verifyDir_body_returns rootDir live h :
  ctxs h = [] →
  result (scanFiles rootDir "" live h) = inr tt →
  verifyDir_body rootDir live h =
    Outcome (emitted (scanFiles rootDir "" live h)
             ++ (dir_not_found <$> elements (dbDirs h ∖ entered "" live)))
            (final (scanFiles rootDir "" live h)) (inr tt).
Proof.
  intros Hc Hr. destruct (proj1 walks_scan live rootDir "" h) as [Hs _].
  destruct (Hs Hr) as [Hd Hk]. rewrite erase_in_top_nil, Hc in Hk.
  unfold verifyDir_body. rewrite (bind_return _ _ _ _ Hr).
  erewrite bind_run by reflexivity.
  erewrite bind_run by apply (proj2 (for_each_log dir_not_found _ _)).
  unfold assert_ctxs_empty. rewrite Hk, Hd. simpl. by rewrite app_nil_r.
Qed.

Lemma verifyDir_body_throws rootDir live h e :
  result (scanFiles rootDir "" live h) = inl e →
  verifyDir_body rootDir live h =
    Outcome (emitted (scanFiles rootDir "" live h))
            (final (scanFiles rootDir "" live h)) (inl e).
Proof. intros Hr. unfold verifyDir_body. by rewrite (bind_throw _ _ _ _ Hr). Qed.

Lemma verifyDir_body_result rootDir live h :
  ctxs h = [] →
  result (verifyDir_body rootDir live h) = result (scanFiles rootDir "" live h).
Proof.
  intros Hc. destruct (result (scanFiles rootDir "" live h)) as [e|[]] eqn:Hr.
  - by rewrite (verifyDir_body_throws _ _ _ _ Hr).
  - by rewrite (verifyDir_body_returns _ _ _ Hc Hr).
Qed.

(** C6 (as amended): after a walk that returns, the directory set holds the
    recorded paths of the directories the walker did not open; a recorded
    path is removed exactly when the walker opens the directory with that
    path. *)
Theorem directory_set_after_walk (rootDir : string) (live : dir) (db : FileDB) :
  let o := verifyDir_body rootDir live (initial_observer db) in
  result o = inr tt →
  dbDirs (final o) = (getDirs db).2 ∖ entered "" live
  ∧ ∀ p, p ∈ (getDirs db).2 → (p ∉ dbDirs (final o) ↔ p ∈ entered "" live).
Proof.
  intros o Hr. subst o.
  rewrite verifyDir_body_result in Hr by done.
  rewrite (verifyDir_body_returns _ _ (initial_observer db) eq_refl Hr).
  cbn [final].
  destruct (proj1 walks_scan live rootDir "" (initial_observer db)) as [Hs _].
  destruct (Hs Hr) as [Hd _]. rewrite Hd. cbn [initial_observer dbDirs].
  split; [done|]. intros p Hp. rewrite not_elem_of_difference. tauto.
Qed.

(** The missing-directory entries of a run that returns: one for each
    recorded path the walker did not open, and no other. *)
Lemma dir_not_found_entries rootDir live db :
  let o := verifyDir_body rootDir live (initial_observer db) in
  result o = inr tt →
  filter (λ e, is_dir_not_found e = true) (emitted o)
  = dir_not_found <$> elements ((getDirs db).2 ∖ entered "" live).
Proof.
  intros o Hr. subst o.
  rewrite verifyDir_body_result in Hr by done.
  rewrite (verifyDir_body_returns _ _ (initial_observer db) eq_refl Hr).
  cbn [emitted initial_observer dbDirs].
  destruct (proj1 walks_scan live rootDir "" (initial_observer db)) as [_ Hl].
  rewrite filter_app.
  assert (Hnone : ∀ l, Forall (λ e, is_dir_not_found e = false) l →
                       filter (λ e, is_dir_not_found e = true) l = []).
  { induction 1 as [|e l He _ IH]; [done|].
    rewrite filter_cons_False by (by rewrite He). exact IH. }
  rewrite (Hnone _ Hl). simpl.
  induction (elements _) as [|p ps IH]; [done|].
  rewrite fmap_cons, filter_cons_True by done. by rewrite IH.
Qed.
End AfterWalk.

(** ** The store during the walk *)
Section StoreFrame.
Context {X : External} {RO : ReadOnlyQueries X}.

Lemma keeps_db_bind (m1 m2 : M VerifyState unit) :
  keeps_db m1 → keeps_db m2 → keeps_db (bind m1 (λ _, m2)).
Proof.
  intros H1 H2 h. unfold bind.
  destruct (result (m1 h)) as [e|[]]; simpl; [apply H1|].
  rewrite H2. apply H1.
Qed.

Lemma keeps_db_for_each {A} (body : A → M VerifyState unit) (xs : list A) :
  Forall (λ x, keeps_db (body x)) xs → keeps_db (for_each body xs).
Proof.
  induction 1 as [|x xs Hx _ IH]; [done|].
  rewrite for_each_cons. by apply keeps_db_bind.
Qed.

Lemma keeps_db_verify_file rootDir relDir name :
  keeps_db (verify_file rootDir relDir name).
Proof.
  intros h. destruct (ctxs h) as [|c below] eqn:Hc.
  - by rewrite verify_file_empty_stack.
  - rewrite (verify_file_run _ _ _ _ _ _ Hc).
    by repeat case_match.
Qed.

Lemma keeps_db_verify_dirEnd relDir : keeps_db (verify_dirEnd relDir).
Proof.
  intros h. destruct (ctxs h) as [|c below] eqn:Hc.
  - by rewrite verify_dirEnd_empty_stack.
  - by rewrite (verify_dirEnd_emitted _ _ _ _ Hc).
Qed.

Lemma keeps_db_verify_dirStart relDir : keeps_db (verify_dirStart relDir).
Proof. intros h. rewrite verify_dirStart_run. simpl. apply getFiles_ro. Qed.

Lemma keeps_db_scan :
  (∀ d rootDir relDir, keeps_db (scanFiles rootDir relDir d))
  ∧ (∀ e rootDir relDir, keeps_db (scanEntry rootDir relDir e)).
Proof.
  apply dir_dirent_ind.
  - intros errno rootDir relDir h. rewrite scanFiles_fail.
    by destruct (bool_decide _).
  - intros entries IH rootDir relDir. rewrite scanFiles_ok.
    apply keeps_db_bind; [done|].
    apply keeps_db_bind; [apply keeps_db_verify_dirStart|].
    apply keeps_db_bind; [|apply keeps_db_verify_dirEnd].
    apply keeps_db_for_each. eapply Forall_impl; [exact IH|]. intros e He. apply He.
  - intros name rootDir relDir. apply keeps_db_verify_file.
  - intros name sub IH rootDir relDir. simpl.
    destruct (is_dot_or_dotdot name); [done|apply IH].
  - done.
Qed.

Lemma keeps_db_verifyDir_body rootDir live : keeps_db (verifyDir_body rootDir live).
Proof.
  intros h. unfold verifyDir_body.
  destruct (result (scanFiles rootDir "" live h)) as [e|[]] eqn:Hr.
  - rewrite (bind_throw _ _ _ _ Hr). apply keeps_db_scan.
  - rewrite (bind_return _ _ _ _ Hr).
    erewrite bind_run by reflexivity.
    erewrite bind_run by apply (proj2 (for_each_log dir_not_found _ _)).
    unfold assert_ctxs_empty. cbn [final].
    destruct (ctxs _); apply keeps_db_scan.
Qed.

(** C10: when the two queries of the store leave it as it was,
    [verifyDir] hands the store back as it received it, whether the walk
    returns or throws and whatever it reports. *)
Theorem verifyDir_leaves_store {MismatchHandler : Type} (rootDir : string)
    (live : dir) (db : FileDB) (mh : MismatchHandler) :
  (final (verifyDir rootDir live (db, mh))).1 = db.
Proof.
  unfold verifyDir. cbn [final fst snd].
  rewrite keeps_db_verifyDir_body. simpl. apply getDirs_ro.
Qed.
End StoreFrame.

(** ** What the walk reads of the store *)
Section Blind.
Context {X : External} {RO : ReadOnlyQueries X}.

Local Ltac same_outcome :=
  unfold similar in *; simpl; repeat split; congruence.

Lemma agree_mono keys keys' db db' :
  keys ⊆ keys' → agree keys' db db' → agree keys db db'.
Proof. intros Hsub Ha k Hk. apply Ha. set_solver. Qed.

Lemma blind_mono keys keys' m : keys ⊆ keys' → blind keys m → blind keys' m.
Proof. intros Hsub Hb h h' Hs Ha. apply Hb; [done|]. by eapply agree_mono. Qed.

Lemma blind_bind keys (m1 m2 : M VerifyState unit) :
  keeps_db m1 → blind keys m1 → blind keys m2 → blind keys (bind m1 (λ _, m2)).
Proof.
  intros Hk H1 H2 h h' Hs Ha.
  destruct (H1 h h' Hs Ha) as (He & Hr & Hs1).
  unfold bind. rewrite <- Hr.
  destruct (result (m1 h)) as [e|[]]; simpl; [done|].
  destruct (H2 (final (m1 h)) (final (m1 h')) Hs1) as (He2 & Hr2 & Hs2).
  { by rewrite !Hk. }
  by rewrite He, He2.
Qed.

Lemma blind_ret : blind ∅ (ret tt).
Proof. by intros h h' Hs Ha. Qed.

Lemma blind_for_each {A} keys (body : A → M VerifyState unit) (xs : list A) :
  Forall (λ x, keeps_db (body x) ∧ blind keys (body x)) xs →
  blind keys (for_each body xs).
Proof.
  induction 1 as [|x xs [Hk Hx] _ IH].
  - eapply blind_mono; [|apply blind_ret]. set_solver.
  - rewrite for_each_cons. by apply blind_bind.
Qed.

(** A visit reads the stack of expectations and nothing else of the
    observer. *)
Lemma blind_verify_file rootDir relDir name :
  blind ∅ (verify_file rootDir relDir name).
Proof.
  intros h h' [Hd Hc] _. destruct (ctxs h) as [|c below] eqn:Hch.
  - rewrite !verify_file_empty_stack by done. same_outcome.
  - rewrite (verify_file_run _ _ _ h _ _ Hch).
    rewrite (verify_file_run _ _ _ h' c below) by done.
    repeat case_match; same_outcome.
Qed.

Lemma blind_verify_dirEnd relDir : blind ∅ (verify_dirEnd relDir).
Proof.
  intros h h' [Hd Hc] _. destruct (ctxs h) as [|c below] eqn:Hch.
  - rewrite !verify_dirEnd_empty_stack by done. same_outcome.
  - rewrite (verify_dirEnd_emitted _ h _ _ Hch).
    rewrite (verify_dirEnd_emitted _ h' c below) by done.
    same_outcome.
Qed.

Lemma blind_verify_dirStart relDir :
  blind {[convertToUtf8 relDir]} (verify_dirStart relDir).
Proof.
  intros h h' [Hd Hc] Ha. rewrite !verify_dirStart_run.
  split; [done|]. split; [done|]. split; simpl.
  - by rewrite Hd.
  - rewrite Hc. f_equal. apply Ha. set_solver.
Qed.

Lemma blind_logDebug a : blind ∅ (logDebug a).
Proof. by intros h h' Hs Ha. Qed.

Lemma blind_scan :
  (∀ d rootDir relDir, blind (entered relDir d) (scanFiles rootDir relDir d))
  ∧ (∀ e rootDir relDir, blind (entered_under relDir e) (scanEntry rootDir relDir e)).
Proof.
  apply dir_dirent_ind.
  - intros errno rootDir relDir h h' Hs Ha. rewrite !scanFiles_fail.
    by destruct (bool_decide _).
  - intros entries IH rootDir relDir. rewrite scanFiles_ok.
    apply blind_bind; [done|by eapply blind_mono, blind_logDebug|].
    apply blind_bind; [apply keeps_db_verify_dirStart| |].
    { eapply blind_mono; [|apply blind_verify_dirStart]. simpl. set_solver. }
    apply blind_bind.
    + apply keeps_db_for_each, Forall_forall. intros e _. apply keeps_db_scan.
    + apply blind_for_each, Forall_forall. intros e He.
      split; [apply keeps_db_scan|].
      eapply blind_mono; [|eapply Forall_forall in IH; [apply IH|exact He]].
      simpl. intros k Hk. apply elem_of_union. right.
      apply elem_of_union_list. exists (entered_under relDir e).
      split; [|done]. apply list_elem_of_fmap. eauto.
    + eapply blind_mono; [|apply blind_verify_dirEnd]. set_solver.
  - intros name rootDir relDir. apply blind_verify_file.
  - intros name sub IH rootDir relDir. simpl.
    destruct (is_dot_or_dotdot name); [apply blind_ret|apply IH].
  - intros d_type name rootDir relDir. apply blind_logDebug.
Qed.

(** Two stores with the same directory set and the same expectations for
    the directories the walker opens give the same log and the same
    result. *)
Lemma verifyDir_body_blind rootDir live db db' :
  (getDirs db').2 = (getDirs db).2 →
  agree (entered "" live) db db' →
  emitted (verifyDir_body rootDir live (initial_observer db'))
  = emitted (verifyDir_body rootDir live (initial_observer db))
  ∧ result (verifyDir_body rootDir live (initial_observer db'))
    = result (verifyDir_body rootDir live (initial_observer db)).
Proof.
  intros Hdirs Ha.
  destruct (proj1 blind_scan live rootDir "" (initial_observer db) (initial_observer db'))
    as (He & Hr & Hd & Hc).
  { split; simpl; [by rewrite Hdirs|done]. }
  { simpl. by rewrite !getDirs_ro. }
  destruct (result (scanFiles rootDir "" live (initial_observer db))) as [e|[]] eqn:Hres.
  - rewrite (verifyDir_body_throws _ _ _ e Hres).
    rewrite (verifyDir_body_throws _ _ (initial_observer db') e) by done.
    done.
  - rewrite (verifyDir_body_returns _ _ (initial_observer db) eq_refl Hres).
    rewrite (verifyDir_body_returns _ _ (initial_observer db') eq_refl) by done.
    simpl. by rewrite He, Hdirs.
Qed.
End Blind.

(** ** Missing directories *)
Section MissingDirectories.
Context {X : External} {RO : ReadOnlyQueries X}.

Lemma filter_eq_fmap_NoDup (ps : list string) (p : string) :
  NoDup ps → p ∈ ps →
  filter (λ e, e = dir_not_found p) (dir_not_found <$> ps) = [dir_not_found p].
Proof.
  assert (Hinj : ∀ q, dir_not_found q = dir_not_found p → q = p).
  { intros q Hq. by injection Hq. }
  assert (Hnone : ∀ qs, p ∉ qs →
            filter (λ e, e = dir_not_found p) (dir_not_found <$> qs) = []).
  { induction qs as [|q qs IH]; [done|]. intros Hp.
    apply not_elem_of_cons in Hp as [Hne Hp].
    rewrite fmap_cons, filter_cons_False; [by apply IH|].
    intros Hq. by apply Hne, eq_sym, Hinj. }
  induction 1 as [|q qs Hq Hnd IH]; intros Hp; [by apply elem_of_nil in Hp|].
  rewrite fmap_cons. destruct (decide (q = p)) as [->|Hne].
  - rewrite filter_cons_True by done. by rewrite Hnone.
  - rewrite filter_cons_False by (intros Hq'; by apply Hne, Hinj).
    apply IH. apply elem_of_cons in Hp as [->|Hp]; done.
Qed.

(** C5 (as amended): in a run that returns, the missing-directory entries
    are one for each recorded directory path the walker did not open and no
    other, so each such path, whether or not it lies below another one, has
    exactly one entry; and the log does not depend on what the store
    records for the directories the walker did not open, so their recorded
    files are not reported. *)
Theorem missing_directories_reported {MismatchHandler : Type} (rootDir : string)
    (live : dir) (db : FileDB) (mh : MismatchHandler) :
  let o := verifyDir rootDir live (db, mh) in
  result o = inr tt →
  filter (λ e, is_dir_not_found e = true) (emitted o)
  = dir_not_found <$> elements ((getDirs db).2 ∖ entered "" live)
  ∧ (∀ p, p ∈ (getDirs db).2 → p ∉ entered "" live →
       filter (λ e, e = dir_not_found p) (emitted o) = [dir_not_found p])
  ∧ (∀ db', (getDirs db').2 = (getDirs db).2 →
       agree (entered "" live) db db' →
       emitted (verifyDir rootDir live (db', mh)) = emitted o).
Proof.
  intros o Hr. subst o. unfold verifyDir in *. cbn [emitted result fst snd] in *.
  fold (initial_observer db) in *.
  pose proof (dir_not_found_entries rootDir live db Hr) as Hentries.
  split_and!.
  - exact Hentries.
  - intros p Hp Hne.
    assert (Hf : ∀ l : list log_entry, filter (λ e, e = dir_not_found p) l
                     = filter (λ e, e = dir_not_found p)
                              (filter (λ e, is_dir_not_found e = true) l)).
    { induction l as [|e l IH]; [done|].
      destruct (decide (e = dir_not_found p)) as [->|He].
      - rewrite (filter_cons_True (λ e, is_dir_not_found e = true)) by done.
        rewrite !filter_cons_True by done. by rewrite IH.
      - rewrite filter_cons_False by done. rewrite IH.
        destruct (decide (is_dir_not_found e = true)).
        + rewrite (filter_cons_True (λ e, is_dir_not_found e = true)) by done.
          by rewrite filter_cons_False.
        + by rewrite (filter_cons_False (λ e, is_dir_not_found e = true)). }
    rewrite Hf, Hentries. apply filter_eq_fmap_NoDup; [apply NoDup_elements|].
    apply elem_of_elements. set_solver.
  - intros db' Hdirs Ha. fold (initial_observer db').
    by destruct (verifyDir_body_blind rootDir live db db' Hdirs Ha).
Qed.
End MissingDirectories.

#[global] Instance simple_read_only fill : ReadOnlyQueries (Fixtures.simple fill).
Proof. by split. Qed.

Lemma missing_directories_reported_witness :
  let X := Fixtures.simple (Fixtures.always Fixtures.live_a) in
  filter (λ e, is_dir_not_found e = true)
         (emitted (verifyDir "root" (OpenDirOk []) (Fixtures.nested_store, tt)))
  = dir_not_found <$> elements ((getDirs Fixtures.nested_store).2 ∖ entered "" (OpenDirOk [])).
Proof.
  intros X.
  assert (Hr : result (verifyDir "root" (OpenDirOk []) (Fixtures.nested_store, tt)) = inr tt)
    by (vm_compute; reflexivity).
  exact (proj1 (missing_directories_reported (X := X) "root" (OpenDirOk [])
                  Fixtures.nested_store tt Hr)).
Defined.

(** C5, as stated, fails: the store records [a] and, below it, [a/b] and the
    file [a/x]; the live root is empty.  The run reports [a] missing and
    reports [a/b] missing as well. *)
Lemma nested_directory_counterexample :
  let X := Fixtures.simple (Fixtures.always Fixtures.live_a) in
  let o := verifyDir "root" (OpenDirOk []) (Fixtures.nested_store, tt) in
  result o = inr tt
  ∧ dir_not_found "a" ∈ emitted o
  ∧ ¬ (dir_not_found "a/b" ∉ emitted o).
Proof.
  intros X o. split; [vm_compute; reflexivity|]. split.
  - apply (bool_decide_unpack _). vm_compute. exact I.
  - intros Hn. apply Hn. apply (bool_decide_unpack _). vm_compute. exact I.
Qed.

Lemma directory_set_after_walk_witness :
  let X := Fixtures.simple (Fixtures.always Fixtures.live_a) in
  dbDirs (final (verifyDir_body "root" Fixtures.unreadable_a
                   (initial_observer Fixtures.flat_store)))
  = (getDirs Fixtures.flat_store).2 ∖ entered "" Fixtures.unreadable_a.
Proof.
  intros X.
  assert (Hr : result (verifyDir_body "root" Fixtures.unreadable_a
                         (initial_observer Fixtures.flat_store)) = inr tt)
    by (vm_compute; reflexivity).
  exact (proj1 (directory_set_after_walk (X := X) "root" Fixtures.unreadable_a
                  Fixtures.flat_store Hr)).
Defined.

(** C6, as stated, fails: the live root holds the directory [a], which
    cannot be opened.  The walk returns and [a] is still in the directory
    set, although the directory exists. *)
Lemma unreadable_directory_counterexample :
  let X := Fixtures.simple (Fixtures.always Fixtures.live_a) in
  let o := verifyDir_body "root" Fixtures.unreadable_a
             (initial_observer Fixtures.flat_store) in
  result o = inr tt
  ∧ ¬ (∀ p, p ∈ dbDirs (final o) → p ∉ existing "" Fixtures.unreadable_a).
Proof.
  intros X o. split; [vm_compute; reflexivity|].
  intros Hall. apply (Hall "a").
  - apply (bool_decide_unpack _). vm_compute. exact I.
  - apply (bool_decide_unpack _). vm_compute. exact I.
Qed.

Lemma verifyDir_leaves_store_witness :
  let X := Fixtures.simple (Fixtures.always Fixtures.live_a) in
  (final (verifyDir "root" (OpenDirOk [DT_REG "a"]) (Fixtures.nested_store, tt))).1
  = Fixtures.nested_store.
Proof.
  intros X.
  exact (verifyDir_leaves_store (X := X) (RO := simple_read_only _)
           "root" (OpenDirOk [DT_REG "a"]) Fixtures.nested_store tt).
Defined.

(** ** Accounting for one directory *)
Section Accounting.
Context {X : External}.

Lemma erase_names_cons name names c :
  erase_names (name :: names) c = erase_names names (delete (convertToUtf8 name) c).
Proof. reflexivity. Qed.

Lemma dom_erase_names names (c : gmap string FileRecord) :
  dom (erase_names names c) = dom c ∖ list_to_set (convertToUtf8 <$> names).
Proof.
  revert c. induction names as [|name names IH]; intros c.
  - simpl. set_solver.
  - rewrite erase_names_cons, IH, dom_delete_L. simpl. set_solver.
Qed.

End Accounting.

Section DirectoryAccounting.
Context {X : External}.



End DirectoryAccounting.


(** ** The walker, for any observer *)
Section AnyObserver.
Context {H : Type} {EH : EventHandler H}.

Lemma is_dot_or_dotdot_spec (name : string) :
  is_dot_or_dotdot name = bool_decide (name = "." ∨ name = "..").
Proof.
  destruct (decide (name = ".")) as [->|H1]; [done|].
  destruct (decide (name = "..")) as [->|H2]; [done|].
  rewrite bool_decide_false by (by intros [|]).
  destruct name as [|a rest]; [done|].
  destruct a as [[] [] [] [] [] [] [] []]; try reflexivity.
  destruct rest as [|b rest]; [done|].
  destruct b as [[] [] [] [] [] [] [] []]; try reflexivity.
  destruct rest as [|c rest]; [done|reflexivity].
Qed.

Lemma bind_assoc {A B C} (m : M H A) (k1 : A → M H B) (k2 : B → M H C) (s : H) :
  bind (bind m k1) k2 s = bind m (λ a, bind (k1 a) k2) s.
Proof.
  unfold bind. destruct (result (m s)) as [e|a]; simpl; [done|].
  destruct (result (k1 a (final (m s)))) as [e|b]; simpl; [done|].
  by rewrite app_assoc.
Qed.

Lemma bind_ext {A B} (m : M H A) (k k' : A → M H B) (s : H) :
  (∀ a s', k a s' = k' a s') → bind m k s = bind m k' s.
Proof.
  intros Hk. unfold bind. destruct (result (m s)) as [e|a]; [done|]. by rewrite Hk.
Qed.

Lemma bind_ret_l {B} (k : unit → M H B) (s : H) : bind (ret tt) k s = k tt s.
Proof. unfold bind. simpl. by destruct (k tt s). Qed.

Lemma for_each_app {A} (body : A → M H unit) (xs ys : list A) (s : H) :
  for_each body (xs ++ ys) s = bind (for_each body xs) (λ _, for_each body ys) s.
Proof.
  revert s. induction xs as [|x xs IH]; intros s.
  - by rewrite for_each_nil, bind_ret_l.
  - rewrite <- app_comm_cons, !for_each_cons, bind_assoc.
    apply bind_ext. intros [] s'. apply IH.
Qed.
Lemma scanFiles_open_failure rootDir relDir errno (s : H) :
  scanFiles rootDir relDir (OpenDirFail errno) s =
    if bool_decide (errno = EACCES)
    then Outcome [scanning rootDir;
                  LogEntry Debug [Lit "No access to '"; CStr rootDir; Chr "'"%char]]
                 s (inr tt)
    else Outcome [scanning rootDir] s (inl (ThrowInt errno)).
Proof. simpl. unfold bind. simpl. by destruct (bool_decide _). Qed.

Lemma scanFiles_opened rootDir relDir entries :
  scanFiles (H := H) rootDir relDir (OpenDirOk entries) =
    bind (logDebug (args (scanning rootDir))) (λ _,
    bind (dirStart relDir) (λ _,
    bind (for_each (scanEntry rootDir relDir) entries) (λ _,
    dirEnd relDir))).
Proof. reflexivity. Qed.

(** A passed-over entry writes to the log, returns, and leaves the observer
    alone. *)
Lemma scanEntry_passed_over rootDir relDir e (s : H) :
  passed_over e = true →
  final (scanEntry rootDir relDir e s) = s
  ∧ result (scanEntry rootDir relDir e s) = inr tt.
Proof.
  destruct e as [name|name sub|d_type name]; [done| |done].
  simpl. rewrite is_dot_or_dotdot_spec.
  destruct (bool_decide (name = "." ∨ name = "..")); [done|]. simpl.
  destruct sub as [errno|entries]; [|done].
  intros Hacc. rewrite scanFiles_open_failure, Hacc. done.
Qed.

Lemma scanEntry_self_or_parent rootDir relDir e (s : H) :
  is_self_or_parent e = true →
  scanEntry rootDir relDir e s = Outcome [] s (inr tt).
Proof.
  destruct e as [name|name sub|d_type name]; [done| |done].
  simpl. rewrite is_dot_or_dotdot_spec. by intros ->.
Qed.

Lemma loop_passed_over rootDir relDir entries (s : H) :
  let o := for_each (scanEntry rootDir relDir) entries s in
  let o' := for_each (scanEntry rootDir relDir)
              (filter (λ e, passed_over e = false) entries) s in
  final o = final o' ∧ result o = result o' ∧ emitted o' `sublist_of` emitted o.
Proof.
  revert s. induction entries as [|e entries IH]; intros s; [done|].
  destruct (passed_over e) eqn:Hp.
  - rewrite filter_cons_False by (by rewrite Hp).
    destruct (scanEntry_passed_over rootDir relDir e s Hp) as [Hf Hr].
    cbn zeta. rewrite for_each_cons, (bind_return _ _ _ _ Hr), Hf.
    destruct (IH s) as (IH1 & IH2 & IH3). cbn [final result emitted].
    split_and!; [done|done|]. by apply sublist_inserts_l.
  - rewrite filter_cons_True by done. cbn zeta. rewrite !for_each_cons.
    unfold bind. destruct (result (scanEntry rootDir relDir e s)) as [ex|[]]; [done|].
    destruct (IH (final (scanEntry rootDir relDir e s))) as (IH1 & IH2 & IH3).
    cbn [final result emitted]. split_and!; [done|done|]. by apply sublist_app.
Qed.

Lemma loop_self_or_parent rootDir relDir entries (s : H) :
  for_each (scanEntry rootDir relDir) entries s
  = for_each (scanEntry rootDir relDir)
      (filter (λ e, is_self_or_parent e = false) entries) s.
Proof.
  revert s. induction entries as [|e entries IH]; intros s; [done|].
  destruct (is_self_or_parent e) eqn:Hp.
  - rewrite filter_cons_False by (by rewrite Hp).
    rewrite for_each_cons.
    rewrite (bind_run _ _ _ _ _ _ (scanEntry_self_or_parent rootDir relDir e s Hp)).
    rewrite <- IH. by destruct (for_each _ entries s).
  - rewrite filter_cons_True by done. rewrite !for_each_cons.
    apply bind_ext. intros [] s'. apply IH.
Qed.

(** X1: the entries [.] and [..] of a directory make no difference to the
    walk, whatever observer is used and whatever they contain: log, observer
    and result are those of the directory without them. *)
Theorem scan_skips_self_and_parent (rootDir relDir : string) (entries : list dirent)
    (s : H) :
  scanFiles rootDir relDir (OpenDirOk entries) s
  = scanFiles rootDir relDir
      (OpenDirOk (filter (λ e, is_self_or_parent e = false) entries)) s.
Proof.
  rewrite !scanFiles_opened.
  apply bind_ext. intros [] s1. apply bind_ext. intros [] s2.
  unfold bind. rewrite <- loop_self_or_parent. done.
Qed.

Lemma covers_bind_head {A B} (m : M H A) (k k' : A → M H B) (s : H) :
  (∀ a s', final (k a s') = final (k' a s') ∧ result (k a s') = result (k' a s')
           ∧ emitted (k' a s') `sublist_of` emitted (k a s')) →
  final (bind m k s) = final (bind m k' s)
  ∧ result (bind m k s) = result (bind m k' s)
  ∧ emitted (bind m k' s) `sublist_of` emitted (bind m k s).
Proof.
  intros Hk. unfold bind. destruct (result (m s)) as [e|a]; [done|].
  destruct (Hk a (final (m s))) as (H1 & H2 & H3). cbn [final result emitted].
  split_and!; [done|done|]. by apply sublist_app.
Qed.

Lemma covers_bind_tail {A B} (m m' : M H A) (k : A → M H B) (s : H) :
  final (m s) = final (m' s) → result (m s) = result (m' s) →
  emitted (m' s) `sublist_of` emitted (m s) →
  final (bind m k s) = final (bind m' k s)
  ∧ result (bind m k s) = result (bind m' k s)
  ∧ emitted (bind m' k s) `sublist_of` emitted (bind m k s).
Proof.
  intros H1 H2 H3. unfold bind. rewrite <- H2, <- H1.
  destruct (result (m s)) as [e|a]; cbn [final result emitted]; [done|].
  split_and!; [done|done|]. by apply sublist_app.
Qed.

(** X2: entries that are neither regular files nor directories, and
    directories that cannot be opened because access is denied, never reach
    the observer and do not stop the walk: the observer ends in the same
    state, with the same result, as on the directory without these entries,
    and the log of that smaller walk is a subsequence of the log. *)
Theorem scan_passes_over (rootDir relDir : string) (entries : list dirent) (s : H) :
  let o := scanFiles rootDir relDir (OpenDirOk entries) s in
  let o' := scanFiles rootDir relDir
              (OpenDirOk (filter (λ e, passed_over e = false) entries)) s in
  final o = final o' ∧ result o = result o' ∧ emitted o' `sublist_of` emitted o.
Proof.
  cbn zeta. rewrite !scanFiles_opened.
  apply covers_bind_head. intros [] s1.
  apply covers_bind_head. intros [] s2.
  destruct (loop_passed_over rootDir relDir entries s2) as (L1 & L2 & L3).
  by apply covers_bind_tail.
Qed.
End AnyObserver.

(** ** The order of the calls the walker makes *)

Lemma nesting_app (calls1 calls2 : list call) (open : list string) :
  nesting (calls1 ++ calls2) open = nesting calls1 open ≫= nesting calls2.
Proof.
  revert open. induction calls1 as [|c calls1 IH]; intros open; [done|].
  destruct c as [r|r|root r name]; simpl.
  - apply IH.
  - destruct open as [|top outer]; [done|]. case_bool_decide; [apply IH|done].
  - destruct open as [|top outer]; [done|]. case_bool_decide; [apply IH|done].
Qed.

Lemma respects_bind open (m1 m2 : M (list call) unit) :
  respects open m1 → respects open m2 → respects open (bind m1 (λ _, m2)).
Proof.
  intros H1 H2 s. destruct (H1 s) as (new1 & Hf1 & Hs1 & Hr1).
  unfold bind. destruct (result (m1 s)) as [e|[]]; cbn [final result].
  - exists new1. by split_and!.
  - rewrite Hf1. destruct (H2 (s ++ new1)) as (new2 & Hf2 & Hs2 & Hr2).
    exists (new1 ++ new2). rewrite Hf2, app_assoc, nesting_app, Hr1 by done.
    by split_and!.
Qed.

Lemma respects_ret open : respects open (ret tt).
Proof. intros s. exists []. simpl. rewrite app_nil_r. by split_and!. Qed.

Lemma respects_logDebug open a : respects open (logDebug a).
Proof. intros s. exists []. simpl. rewrite app_nil_r. by split_and!. Qed.

Lemma respects_throw open e : respects open (throw e).
Proof. intros s. exists []. simpl. rewrite app_nil_r. by split_and!. Qed.

Lemma respects_for_each {A} open (body : A → M (list call) unit) (xs : list A) :
  Forall (λ x, respects open (body x)) xs → respects open (for_each body xs).
Proof.
  induction 1 as [|x xs Hx _ IH]; [apply respects_ret|].
  rewrite for_each_cons. by apply respects_bind.
Qed.

Lemma respects_scan :
  (∀ d rootDir relDir open, respects open (@scanFiles _ recorder rootDir relDir d))
  ∧ (∀ e rootDir relDir open,
       respects (relDir :: open) (@scanEntry _ recorder rootDir relDir e)).
Proof.
  apply dir_dirent_ind.
  - intros errno rootDir relDir open. simpl.
    apply respects_bind; [apply respects_logDebug|].
    destruct (bool_decide _); [apply respects_logDebug|apply respects_throw].
  - intros entries IH rootDir relDir open s. rewrite scanFiles_opened.
    erewrite bind_run by reflexivity.
    erewrite (bind_run (dirStart relDir)) by reflexivity.
    assert (Hloop : respects (relDir :: open)
                      (for_each (@scanEntry _ recorder rootDir relDir) entries)).
    { apply respects_for_each. eapply Forall_impl; [exact IH|]. intros e He. apply He. }
    destruct (Hloop (s ++ [DirStart relDir])) as (new & Hf & Hs & Hr).
    unfold bind. destruct (result (for_each _ entries _)) as [ex|[]]; cbn [final result].
    + exists (DirStart relDir :: new). rewrite Hf, <- app_assoc. by split_and!.
    + exists (DirStart relDir :: new ++ [DirEnd relDir]).
      simpl. rewrite Hf, <- !app_assoc. simpl.
      rewrite nesting_app, Hr by done. simpl. rewrite bool_decide_true by done.
      by split_and!.
  - intros name rootDir relDir open s. exists [File rootDir relDir name].
    simpl. rewrite bool_decide_true by done. by split_and!.
  - intros name sub IH rootDir relDir open. simpl.
    destruct (is_dot_or_dotdot name); [apply respects_ret|apply IH].
  - intros d_type name rootDir relDir open. apply respects_logDebug.
Qed.

(** X3: whatever the live tree, the calls the walker makes on its observer
    are well nested: every [file] and every [dirEnd] names the innermost
    directory entered and not yet left, also in a walk that an [opendir]
    failure cuts short; and a walk that returns has left every directory it
    entered. *)
Theorem walker_calls_well_nested (rootDir relDir : string) (d : dir)
    (open : list string) (s : list call) :
  let o := @scanFiles _ recorder rootDir relDir d s in
  ∃ new, final o = s ++ new
    ∧ is_Some (nesting new open)
    ∧ (result o = inr tt → nesting new open = Some open).
Proof. apply respects_scan. Qed.

(** ** The stack of expectations and the root *)
Section VerifyExceptions.
Context {X : External}.

(** X4: a walk that returns leaves the stack of expectations as it found
    it: every directory entered has been left. *)
Theorem scan_restores_stack (rootDir relDir : string) (d : dir) (h : VerifyState) :
  result (scanFiles rootDir relDir d h) = inr tt →
  ctxs (final (scanFiles rootDir relDir d h)) = ctxs h.
Proof.
  intros Hr. destruct (proj1 walks_scan d rootDir relDir h) as [Hs _].
  destruct (Hs Hr) as [_ Hc]. by rewrite erase_in_top_nil in Hc.
Qed.

(** X6: a root that cannot be opened.  For lack of access the run returns,
    after reporting every recorded directory as missing and nothing else;
    for any other reason it throws the [errno] and reports nothing. *)
Theorem verifyDir_root_not_opened {MismatchHandler : Type} (rootDir : string)
    (errno : Z) (db : FileDB) (mh : MismatchHandler) :
  let o := verifyDir rootDir (OpenDirFail errno) (db, mh) in
  if bool_decide (errno = EACCES)
  then result o = inr tt
       ∧ emitted o
         = [scanning rootDir;
            LogEntry Debug [Lit "No access to '"; CStr rootDir; Chr "'"%char]]
           ++ (dir_not_found <$> elements (getDirs db).2)
  else result o = inl (ThrowInt errno) ∧ emitted o = [scanning rootDir].
Proof.
  unfold verifyDir. cbn [result emitted fst]. fold (initial_observer db).
  pose proof (scanFiles_fail rootDir "" errno (initial_observer db)) as Hscan.
  case_bool_decide as Herr.
  - rewrite (verifyDir_body_returns _ _ (initial_observer db) eq_refl)
      by (by rewrite Hscan).
    rewrite Hscan. cbn [result emitted entered initial_observer dbDirs].
    split; [done|]. by rewrite difference_empty_L.
  - rewrite (verifyDir_body_throws _ _ (initial_observer db) (ThrowInt errno))
      by (by rewrite Hscan).
    by rewrite Hscan.
Qed.
End VerifyExceptions.

Lemma scan_restores_stack_witness :
  let X := Fixtures.simple (Fixtures.always Fixtures.live_a) in
  let h := mkVerifyState ∅ [∅] Fixtures.nested_store in
  ctxs (final (scanFiles "root" "" (OpenDirOk Fixtures.mixed_entries) h)) = ctxs h.
Proof.
  intros X h.
  assert (Hr : result (scanFiles "root" "" (OpenDirOk Fixtures.mixed_entries) h) = inr tt)
    by (vm_compute; reflexivity).
  exact (scan_restores_stack (X := X) "root" "" (OpenDirOk Fixtures.mixed_entries) h Hr).
Defined.

(** ** Visits, one field at a time *)
Section Visits.
Context {X : External}.

Lemma elem_of_field_mismatches (e : log_entry) p expected actual :
  e ∈ field_mismatches p expected actual ↔
    (e = size_mismatch p expected actual ∧ fileSize expected ≠ fileSize actual)
    ∨ (e = timestamp_mismatch p expected actual
       ∧ lastModifiedTS expected ≠ lastModifiedTS actual)
    ∨ (e = digest_mismatch p expected actual
       ∧ take MD5_DIGEST_LENGTH (md5Digest actual)
         ≠ take MD5_DIGEST_LENGTH (md5Digest expected)).
Proof.
  unfold field_mismatches, std_equal_md5.
  rewrite !elem_of_app.
  repeat case_bool_decide; rewrite ?elem_of_nil, ?list_elem_of_singleton; tauto.
Qed.

(** X7: the visit of a recorded file that can be read writes the size
    mismatch exactly when the sizes differ, the timestamp mismatch exactly
    when the timestamps differ and the digest mismatch exactly when the
    digests differ, each independently of the other two fields; it writes no
    error at all exactly when the three fields agree; and in every case it
    erases the record. *)
Theorem visit_reports_each_field (rootDir relDir fileName : string) (h : VerifyState)
    (c : gmap string FileRecord) (below : list (gmap string FileRecord))
    (expected actual : FileRecord) :
  ctxs h = c :: below →
  c !! convertToUtf8 fileName = Some expected →
  fillFileRecord (absolute_path rootDir fileName) = inr actual →
  let o := verify_file rootDir relDir fileName h in
  let p := relative_path relDir fileName in
  result o = inr tt
  ∧ (size_mismatch p expected actual ∈ emitted o
     ↔ fileSize expected ≠ fileSize actual)
  ∧ (timestamp_mismatch p expected actual ∈ emitted o
     ↔ lastModifiedTS expected ≠ lastModifiedTS actual)
  ∧ (digest_mismatch p expected actual ∈ emitted o
     ↔ take MD5_DIGEST_LENGTH (md5Digest actual)
       ≠ take MD5_DIGEST_LENGTH (md5Digest expected))
  ∧ (filter (λ e, level e = Error) (emitted o) = [] ↔ same_fields expected actual)
  ∧ ctxs (final o) = delete (convertToUtf8 fileName) c :: below.
Proof.
  intros Hc Hl Hf o p. subst o p.
  rewrite (verify_file_run _ _ _ _ _ _ Hc), Hl, Hf. cbn [result emitted final ctxs].
  split_and!; [done| | | | |done].
  - rewrite elem_of_cons, elem_of_field_mismatches.
    split; [|tauto]. intros [He|[[_ ?]|[[He _]|[He _]]]]; done.
  - rewrite elem_of_cons, elem_of_field_mismatches.
    split; [|tauto]. intros [He|[[He _]|[[_ ?]|[He _]]]]; done.
  - rewrite elem_of_cons, elem_of_field_mismatches.
    split; [|tauto]. intros [He|[[He _]|[[He _]|[_ ?]]]]; done.
  - unfold field_mismatches, std_equal_md5, same_fields.
    rewrite filter_cons_False by done.
    repeat case_bool_decide; split; try done; try tauto; intros (? & ? & ?); done.
Qed.

(** X8: a renamed file.  A directory for which the store records one file,
    and which holds one regular file under another key, gives one new-file
    entry for the live name and one file-not-found entry for the recorded
    name, and nothing is read. *)
Theorem renamed_file (rootDir relDir old new : string) (r : FileRecord)
    (h : VerifyState) :
  (getFiles (dbRef h) (convertToUtf8 relDir)).2 = {[old := r]} →
  convertToUtf8 new ≠ old →
  let o := scanFiles rootDir relDir (OpenDirOk [DT_REG new]) h in
  result o = inr tt
  ∧ emitted o = [scanning rootDir; checking new;
                 new_file_found (relative_path relDir new);
                 file_not_found relDir (old, r)]
  ∧ ctxs (final o) = ctxs h.
Proof.
  intros HE Hne. cbn zeta. rewrite scanFiles_ok.
  erewrite bind_run by reflexivity.
  erewrite bind_run by apply verify_dirStart_run.
  rewrite HE. rewrite for_each_cons, for_each_nil.
  change (scanEntry rootDir relDir (DT_REG new)) with (verify_file rootDir relDir new).
  erewrite (bind_run (bind _ _)).
  2:{ erewrite bind_run.
      2:{ erewrite verify_file_run by reflexivity.
          rewrite lookup_singleton_ne by done. reflexivity. }
      reflexivity. }
  erewrite verify_dirEnd_emitted by reflexivity.
  rewrite map_to_list_singleton. done.
Qed.
End Visits.

Lemma visit_reports_each_field_witness :
  let X := Fixtures.simple (Fixtures.always Fixtures.live_a) in
  let h := MoreFixtures.in_directory X (Fixtures.mkSimpleDB ∅ ∅) in
  result (verify_file "root" "" "a.txt" h) = inr tt.
Proof.
  intros X h.
  exact (proj1 (visit_reports_each_field (X := X) "root" "" "a.txt" h
                  {["a.txt" := Fixtures.recorded_a]} []
                  Fixtures.recorded_a Fixtures.live_a eq_refl eq_refl eq_refl)).
Defined.

Lemma renamed_file_witness :
  let X := Fixtures.simple MoreFixtures.unreadable in
  let h := initial_observer MoreFixtures.renamed_store in
  result (scanFiles "root" "" (OpenDirOk [DT_REG "new"]) h) = inr tt.
Proof.
  intros X h.
  assert (HE : (getFiles (dbRef h) (convertToUtf8 "")).2 = {["old" := Fixtures.recorded_a]})
    by (vm_compute; reflexivity).
  assert (Hne : convertToUtf8 "new" ≠ "old") by (simpl; discriminate).
  exact (proj1 (renamed_file (X := X) "root" "" "old" "new" Fixtures.recorded_a h HE Hne)).
Defined.

(** ** A directory found as recorded *)
Section Unchanged.
Context {X : External}.

Lemma field_mismatches_same p expected actual :
  same_fields expected actual → field_mismatches p expected actual = [].
Proof.
  intros (Hs & Ht & Hd). unfold field_mismatches, std_equal_md5.
  by rewrite !bool_decide_true.
Qed.

Lemma visits_unchanged rootDir relDir names (h : VerifyState) c below :
  ctxs h = c :: below →
  NoDup (convertToUtf8 <$> names) →
  Forall (unchanged_file rootDir c) names →
  let o := for_each (verify_file rootDir relDir) names h in
  emitted o = checking <$> names ∧ result o = inr tt
  ∧ ctxs (final o) = erase_names names c :: below.
Proof.
  revert h c. induction names as [|name names IH]; intros h c Hc Hnd Hall; [done|].
  rewrite fmap_cons in Hnd. apply NoDup_cons in Hnd as [Hnotin Hnd].
  apply Forall_cons in Hall as [(expected & actual & Hl & Hf & Hsame) Hall].
  cbn zeta. rewrite for_each_cons.
  erewrite bind_run.
  2:{ rewrite (verify_file_run _ _ _ _ _ _ Hc), Hl, Hf.
      by rewrite field_mismatches_same. }
  set (h' := mkVerifyState _ _ _).
  destruct (IH h' (delete (convertToUtf8 name) c)) as (IH1 & IH2 & IH3); [done|done| |].
  - apply Forall_forall. intros name' Hin.
    eapply Forall_forall in Hall as (expected' & actual' & Hl' & Hrest); [|exact Hin].
    exists expected', actual'. split; [|done].
    rewrite lookup_delete_ne; [done|].
    intros Heq. apply Hnotin. rewrite Heq. apply list_elem_of_fmap. eauto.
  - cbn [emitted final result]. by rewrite IH1, IH2, IH3.
Qed.

(** X9: a directory found as recorded is verified in silence.  When the
    directory holds regular files only, their keys are distinct, each has a
    record that agrees with the file in size, timestamp and digest, and the
    store records no other file for the directory, the walk of the directory
    returns and writes no error: no new file, no mismatch, no missing file. *)
Theorem unchanged_directory_is_silent (rootDir relDir : string) (names : list string)
    (h : VerifyState) :
  let E := (getFiles (dbRef h) (convertToUtf8 relDir)).2 in
  NoDup (convertToUtf8 <$> names) →
  dom E = list_to_set (convertToUtf8 <$> names) →
  Forall (unchanged_file rootDir E) names →
  let o := scanFiles rootDir relDir (OpenDirOk (DT_REG <$> names)) h in
  result o = inr tt
  ∧ emitted o = scanning rootDir :: (checking <$> names)
  ∧ filter (λ e, level e = Error) (emitted o) = [].
Proof.
  intros E Hnd Hdom Hall. cbn zeta.
  assert (Hout : scanFiles rootDir relDir (OpenDirOk (DT_REG <$> names)) h
                 = Outcome (scanning rootDir :: (checking <$> names))
                     (final (scanFiles rootDir relDir (OpenDirOk (DT_REG <$> names)) h))
                     (inr tt)).
  { rewrite scanFiles_ok.
    erewrite bind_run by reflexivity.
    erewrite bind_run by apply verify_dirStart_run.
    set (h1 := mkVerifyState _ _ _).
    assert (Hloop : for_each (scanEntry (H := VerifyState) rootDir relDir) (DT_REG <$> names)
                    = for_each (verify_file rootDir relDir) names).
    { clear. induction names as [|n ns IH]; [done|].
      by rewrite fmap_cons, !for_each_cons, IH. }
    rewrite Hloop.
    destruct (visits_unchanged rootDir relDir names h1 E (ctxs h) eq_refl Hnd Hall)
      as (V1 & V2 & V3).
    rewrite (bind_return _ _ _ _ V2).
    assert (Hempty : erase_names names E = ∅).
    { apply dom_empty_inv_L. rewrite dom_erase_names, Hdom. set_solver. }
    rewrite Hempty in V3.
    rewrite (verify_dirEnd_emitted _ _ _ _ V3), map_to_list_empty, V1.
    cbn [emitted final result fmap list_fmap]. by rewrite !app_nil_r. }
  rewrite Hout. cbn [result emitted]. split_and!; [done|done|].
  rewrite filter_cons_False by done.
  clear. induction names as [|n ns IH]; [done|].
  by rewrite fmap_cons, filter_cons_False.
Qed.
End Unchanged.

Lemma unchanged_directory_is_silent_witness :
  let X := Fixtures.simple (Fixtures.always Fixtures.recorded_a) in
  let h := initial_observer MoreFixtures.renamed_store in
  result (scanFiles "root" "" (OpenDirOk (DT_REG <$> ["old"])) h) = inr tt.
Proof.
  intros X h.
  assert (Hnd : NoDup (convertToUtf8 <$> ["old"])).
  { apply (bool_decide_unpack _). vm_compute. exact I. }
  assert (Hdom : dom (getFiles (dbRef h) (convertToUtf8 "")).2
                 = list_to_set (convertToUtf8 <$> ["old"])).
  { vm_compute. reflexivity. }
  assert (Hall : Forall (unchanged_file "root" (getFiles (dbRef h) (convertToUtf8 "")).2)
                        ["old"]).
  { constructor; [|constructor].
    exists Fixtures.recorded_a, Fixtures.recorded_a. by split_and!. }
  exact (proj1 (unchanged_directory_is_silent (X := X) "root" "" ["old"] h Hnd Hdom Hall)).
Defined.

(** ** The reader: failures *)
Section ReaderFailures.
Import Stdio.
Context {A : Type}.

(** X10: a file that cannot be opened.  [processFile] throws the open
    failure with the [errno] of [fopen], the chunk operation is not called,
    nothing is logged and no stream is opened. *)
Theorem processFile_open_failure (chunkOp : list byte → M A unit) (path : string)
    (os : OS) (a : A) (e : Z) :
  disk os path = inl e →
  processFile chunkOp path (os, a)
  = Outcome [] (mkOS (disk os) (open_streams os) e, a) (inl (OpenFileError e)).
Proof.
  intros Hd. unfold processFile, openFile, fopen. cbn [fst snd]. by rewrite Hd.
Qed.

(** X11: a file whose [fclose] fails.  After end-of-file every chunk has
    been fed and [processFile] throws the [errno] of [fclose]; after a read
    error it throws the read failure, not the close failure, and logs that
    the file could not be closed. *)
Theorem processFile_close_failure (op : A → list byte → A) (path : string)
    (os : OS) (a : A) (i : image) (ce : Z) :
  disk os path = inr i →
  close_errno i = Some ce →
  let o := processFile (folding op) path (os, a) in
  errno (final o).1 = ce
  ∧ match bytes_end i with
    | AtEOF =>
        result o = inl (ThrowInt ce) ∧ emitted o = []
        ∧ (final o).2 = fold_left op (chunks_fed (bytes i) AtEOF) a
    | AtError e =>
        result o = inl (ReadFileError e)
        ∧ emitted o = [unable_to_close path]
    end.
Proof.
  intros Hdisk Hce o. subst o.
  unfold processFile, openFile, fopen; simpl; rewrite Hdisk; simpl.
  rewrite lookup_insert_eq.
  set (r := mkReader _ _ _).
  destruct (read_loop_folding BUFSIZE BUFSIZE_pos op r eq_refl) as (Hlog & Hacc & Hres).
  pose proof (read_loop_close_failure BUFSIZE BUFSIZE_pos (folding op) r) as Hclose.
  unfold fclose; simpl; rewrite lookup_insert_eq; simpl in *.
  rewrite Hres, Hclose, Hce, Hlog.
  destruct (bytes_end i); simpl; split_and!; done.
Qed.
End ReaderFailures.

Lemma processFile_open_failure_witness :
  result (processFile (folding Fixtures.keep_chunk) "f" (ReaderFixtures.no_files, []))
  = inl (OpenFileError 2).
Proof.
  rewrite (processFile_open_failure (folding Fixtures.keep_chunk) "f"
             ReaderFixtures.no_files [] 2 eq_refl).
  reflexivity.
Defined.

Lemma processFile_close_failure_witness :
  Stdio.errno (final (processFile (folding Fixtures.keep_chunk) "f"
                        (ReaderFixtures.one_failing_close, []))).1 = 5%Z.
Proof.
  exact (proj1 (processFile_close_failure Fixtures.keep_chunk "f"
                  ReaderFixtures.one_failing_close [] ReaderFixtures.failing_close 5
                  eq_refl eq_refl)).
Defined.

(** ** The reader: how many chunks *)
Section ChunkCount.
Import Stdio.

Lemma fold_left_keep_chunk (chunks : list (list byte)) (a : list (list byte)) :
  fold_left Fixtures.keep_chunk chunks a = a ++ chunks.
Proof.
  revert a. induction chunks as [|c chunks IH]; intros a; simpl.
  - by rewrite app_nil_r.
  - rewrite IH. unfold Fixtures.keep_chunk. by rewrite <- app_assoc.
Qed.

Lemma processFile_accumulator {A : Type} (op : A → list byte → A) (path : string)
    (os : OS) (a : A) (i : image) :
  disk os path = inr i →
  (final (processFile (folding op) path (os, a))).2
  = fold_left op (chunks_fed (bytes i) (bytes_end i)) a.
Proof.
  intros Hdisk.
  unfold processFile, openFile, fopen; simpl; rewrite Hdisk; simpl.
  rewrite lookup_insert_eq.
  set (r := mkReader _ _ _).
  destruct (read_loop_folding BUFSIZE BUFSIZE_pos op r eq_refl) as (Hlog & Hacc & Hres).
  pose proof (read_loop_close_failure BUFSIZE BUFSIZE_pos (folding op) r) as Hclose.
  unfold fclose; simpl; rewrite lookup_insert_eq; simpl in *.
  rewrite Hres, Hclose.
  destruct (bytes_end i), (close_errno i); simpl; exact Hacc.
Qed.

(** X12: the calls of the chunk operation.  For a file that can be opened,
    an accumulator that keeps its chunks ends with the chunks of the content
    appended, in order: one call for each full 4096 bytes, and at
    end-of-file one more call with the bytes left, also when none is left;
    so an empty file gives exactly one call, with no bytes. *)
Theorem processFile_chunk_calls (path : string) (os : OS) (a : list (list byte))
    (i : image) :
  disk os path = inr i →
  let o := processFile (folding Fixtures.keep_chunk) path (os, a) in
  (final o).2 = a ++ chunks_fed (bytes i) (bytes_end i)
  ∧ length (chunks_fed (bytes i) (bytes_end i))
    = length (bytes i) / BUFSIZE
      + match bytes_end i with AtEOF => 1 | AtError _ => 0 end
  ∧ (bytes i = [] → bytes_end i = AtEOF → (final o).2 = a ++ [[]]).
Proof.
  intros Hdisk o.
  pose proof (processFile_accumulator Fixtures.keep_chunk path os a i Hdisk) as Hacc.
  fold o in Hacc. rewrite fold_left_keep_chunk in Hacc.
  split_and!; [exact Hacc| |].
  - unfold chunks_fed, full_chunks.
    rewrite length_app, length_fmap, length_seq. by destruct (bytes_end i).
  - intros Hb He. rewrite Hacc, Hb, He. unfold chunks_fed, full_chunks, final_chunk.
    simpl. rewrite Nat.Div0.div_0_l. done.
Qed.

(** X13: an exception of the chunk operation.  When the operation throws
    on the first chunk (the first 4096 bytes, or all the bytes of a shorter
    file that ends with end-of-file), [processFile] throws the same
    exception, whether or not closing the stream then fails, and the
    operation is not called again. *)
Theorem processFile_chunk_exception {A : Type} (chunkOp : list byte → M A unit)
    (path : string) (os : OS) (a : A) (i : image) (ex : exception) :
  disk os path = inr i →
  BUFSIZE ≤ length (bytes i) ∨ bytes_end i = AtEOF →
  result (chunkOp (take BUFSIZE (bytes i)) a) = inl ex →
  let o := processFile chunkOp path (os, a) in
  result o = inl ex
  ∧ (final o).2 = final (chunkOp (take BUFSIZE (bytes i)) a).
Proof.
  intros Hdisk Hlen Hex o. subst o.
  unfold processFile, openFile, fopen; simpl; rewrite Hdisk; simpl.
  rewrite lookup_insert_eq.
  set (r := mkReader _ _ _).
  assert (Hloop : result (read_loop chunkOp BUFSIZE BUFSIZE_pos r) = inl ex
                  ∧ acc (final (read_loop chunkOp BUFSIZE BUFSIZE_pos r))
                    = final (chunkOp (take BUFSIZE (bytes i)) a)).
  { rewrite read_loop_step. unfold loop_body, fread. subst r. simpl.
    destruct (decide (BUFSIZE ≤ length (bytes i))) as [Hle|Hgt].
    - rewrite bool_decide_true by (rewrite length_take; lia).
      by rewrite Hex.
    - destruct Hlen as [Hle|He]; [done|]. rewrite He.
      rewrite bool_decide_false by lia. simpl.
      rewrite take_ge in Hex |- * by lia. by rewrite Hex. }
  destruct Hloop as [Hr Ha]. rewrite Hr. simpl. done.
Qed.
End ChunkCount.

Lemma processFile_chunk_calls_witness :
  (final (processFile (folding Fixtures.keep_chunk) "f"
            (ReaderFixtures.empty_file, []))).2 = [] ++ [[]].
Proof.
  refine (proj2 (proj2 (processFile_chunk_calls "f" ReaderFixtures.empty_file []
                          (Stdio.mkImage [] Stdio.AtEOF None) eq_refl)) eq_refl eq_refl).
Defined.

Lemma processFile_chunk_exception_witness :
  result (processFile (ReaderFixtures.always_throws (CharPtr "stop")) "f"
            (Fixtures.one_file, 0)) = inl (CharPtr "stop").
Proof.
  refine (proj1 (processFile_chunk_exception
                   (ReaderFixtures.always_throws (CharPtr "stop")) "f"
                   Fixtures.one_file 0 Fixtures.two_bytes (CharPtr "stop")
                   eq_refl (or_intror eq_refl) eq_refl)).
Defined.

(** ** The mismatch handler *)
Section Handler.
Context {S : Type}.
Import VerifyDirMismatchHandler.

Lemma same_fields_decide expected actual :
  same_fields expected actual ↔
    bool_decide (fileSize expected = fileSize actual)
    && bool_decide (lastModifiedTS expected = lastModifiedTS actual)
    && std_equal_md5 (md5Digest actual) (md5Digest expected) = true.
Proof.
  unfold same_fields, std_equal_md5.
  rewrite !andb_true_iff, !bool_decide_eq_true. tauto.
Qed.

(** X14: [checkFileMismatch] answers that the records match exactly when
    their kinds are equal and, for two files, size, timestamp and digest
    agree; two records of the same kind other than file always match.  It
    writes nothing exactly when it answers that they match, and it leaves
    its state alone. *)
Theorem checkFileMismatch_answer (path : string) (expected actual : FileRecord) (s : S) :
  let o := checkFileMismatch path expected actual s in
  final o = s
  ∧ ∃ fullMatch, result o = inr fullMatch
      ∧ (fullMatch = true ↔
           type expected = type actual
           ∧ (type actual = FileType.file → same_fields expected actual))
      ∧ (emitted o = [] ↔ fullMatch = true).
Proof.
  cbn zeta. unfold checkFileMismatch.
  destruct (decide (type expected = type actual)) as [Ht|Ht].
  - rewrite (bool_decide_true _ Ht). cbn [negb].
    destruct (decide (type actual = FileType.file)) as [Hf|Hf].
    + rewrite (bool_decide_true _ Hf).
      pose proof (same_fields_decide expected actual) as Hsame.
      unfold std_equal_md5 in *.
      destruct (bool_decide (fileSize expected = fileSize actual));
        destruct (bool_decide (lastModifiedTS expected = lastModifiedTS actual));
        destruct (bool_decide (take MD5_DIGEST_LENGTH (md5Digest actual)
                               = take MD5_DIGEST_LENGTH (md5Digest expected)));
        simpl in *; (split; [done|]); eexists; (split; [reflexivity|]);
        split; split; try done; try tauto; intros [_ Hs]; apply Hsame; auto.
    + rewrite (bool_decide_false _ Hf). simpl. split; [done|].
      exists true. split_and!; [done|split; [done|tauto]|done].
  - rewrite (bool_decide_false _ Ht). simpl. split; [done|].
    exists false. split_and!; [done| |]; split; try done. by intros [? _].
Qed.

(** X15: for two file records, [checkFileMismatch] writes nothing when the
    three fields agree, and otherwise one header followed by one entry for
    each field that differs, in the order size, timestamp, digest. *)
Theorem checkFileMismatch_file_report (path : string) (expected actual : FileRecord)
    (s : S) :
  type expected = FileType.file →
  type actual = FileType.file →
  emitted (checkFileMismatch path expected actual s)
  = match handler_lines expected actual with
    | [] => []
    | lines => mismatch_header path :: lines
    end.
Proof.
  intros He Ha. unfold checkFileMismatch, handler_lines.
  rewrite He, Ha. simpl.
  destruct (bool_decide (fileSize expected = fileSize actual));
    destruct (bool_decide (lastModifiedTS expected = lastModifiedTS actual));
    destruct (std_equal_md5 _ _); reflexivity.
Qed.
End Handler.

Lemma checkFileMismatch_file_report_witness :
  emitted (VerifyDirMismatchHandler.checkFileMismatch "a"
             Fixtures.recorded_a Fixtures.live_a tt)
  = [VerifyDirMismatchHandler.mismatch_header "a";
     VerifyDirMismatchHandler.size_lines Fixtures.recorded_a Fixtures.live_a;
     VerifyDirMismatchHandler.digest_lines Fixtures.recorded_a Fixtures.live_a].
Proof.
  rewrite (checkFileMismatch_file_report "a" Fixtures.recorded_a Fixtures.live_a tt
             eq_refl eq_refl).
  reflexivity.
Defined.

(** ** The command line *)
Section CommandLine.
Import Main.
Context {C : Collaborators}.

(** How the two handlers of [main] end the program for an exception. *)
Lemma finish_throw out lg e :
  exit (finish out lg (Throw e))
  = match caught_by_main e with Some _ => Exit 1 | None => Terminate e end
  ∧ log (finish out lg (Throw e)) = lg.
Proof. unfold finish. by destruct (caught_by_main e). Qed.

(** X16: a tool that throws.  When create or verify throws, [main] closes
    the database before the exception goes on: the log is what the tool wrote
    followed by what the close wrote.  The program then ends on the exception
    of the tool, or on the exception of the close if that throws as well:
    with status 1 when one of the two handlers catches it, by termination
    otherwise. *)
Theorem main_closes_database_on_exception (argc optind : Z) (argv : list string)
    (gs : list getopt_call) (out out' : list line) (l : locals) (db : DB)
    (e : exception) :
  initConverters = inr tt →
  option_loop gs initial_locals = (out, Go l) →
  check_arguments l optind argc = (out', Go tt) →
  t l = createDB ∨ t l = verifyDir →
  FileDB_open (default "" (dbPath l)) true = inr db →
  let src := default "" (argv !! Z.to_nat optind) in
  let walk := match t l with
              | createDB => run_createDB src (String.length src) db
              | _ => run_verifyDir src (String.length src) db
              end in
  result walk = inl e →
  let close := FileDB_close (final walk) in
  let passed := match result close with inr _ => e | inl e' => e' end in
  log (main argc argv gs optind) = emitted walk ++ emitted close
  ∧ exit (main argc argv gs optind)
    = match caught_by_main passed with Some _ => Exit 1 | None => Terminate passed end.
Proof.
  intros Hinit Hopts Hargs Htool Hopen src walk.
  assert (Hrun : run_tool (t l) src db
                 = (emitted walk, final walk,
                    match result walk with inr _ => Go tt | inl e => Throw e end)).
  { subst walk. unfold run_tool. by destruct Htool as [-> | ->]. }
  intros Hwalk close passed. subst passed close.
  unfold main. rewrite Hinit, Hopts, Hargs. fold src.
  unfold with_database. rewrite Hopen, Hrun, Hwalk. cbn [fst snd].
  destruct (result (FileDB_close (final walk))) as [e'|[]].
  - destruct (finish_throw (out ++ out')
                (emitted walk ++ emitted (FileDB_close (final walk))) e') as [He Hl].
    by rewrite He, Hl.
  - destruct (finish_throw (out ++ out')
                (emitted walk ++ emitted (FileDB_close (final walk))) e) as [He Hl].
    by rewrite He, Hl.
Qed.

Lemma option_loop_app (gs1 gs2 : list getopt_call) (l0 l : locals) (out : list line) :
  option_loop gs1 l0 = (out, Go l) →
  option_loop (gs1 ++ gs2) l0 = (out ++ (option_loop gs2 l).1, (option_loop gs2 l).2).
Proof.
  revert l0 out. induction gs1 as [|g gs1 IH]; intros l0 out.
  - simpl. intros [= <- <-]. by destruct (option_loop gs2 l0).
  - simpl. destruct (handle_option g l0) as [out1 [l1| | |]] eqn:Hg; try done.
    destruct (option_loop gs1 l1) as [out2 f2] eqn:Hrest. simpl.
    intros [= <- ->]. rewrite (IH l1 out2 Hrest). simpl. by rewrite app_assoc.
Qed.

(** X17: help and version end the program at once.  When the options
    before it are accepted, an option [h] or [v] makes [main] exit with status
    0 without running a tool, whatever options follow and whatever operands
    are missing. *)
Theorem main_help_or_version (argc optind : Z) (argv : list string)
    (gs1 gs2 : list getopt_call) (g : getopt_call) (out : list line) (l : locals) :
  initConverters = inr tt →
  option_loop gs1 initial_locals = (out, Go l) →
  c g = chr "h" ∨ c g = chr "v" →
  exit (main argc argv (gs1 ++ g :: gs2) optind) = Exit 0
  ∧ log (main argc argv (gs1 ++ g :: gs2) optind) = [].
Proof.
  intros Hinit Hopts Hg. unfold main.
  rewrite Hinit, (option_loop_app gs1 (g :: gs2) _ _ _ Hopts).
  assert (Hret : ∃ out', handle_option g l = (out', Return 0)).
  { unfold handle_option. destruct Hg as [Hg|Hg]; rewrite Hg.
    - rewrite bool_decide_false by done. rewrite bool_decide_true by done. eauto.
    - rewrite !bool_decide_false by done. rewrite bool_decide_true by done. eauto. }
  destruct Hret as [out' Hret]. simpl. rewrite Hret. done.
Qed.

(** X18: an incomplete command line.  When the options are accepted but no
    operand is given, or more than two, or no tool is selected, or no
    database is named, [main] exits with status 1 and runs no tool. *)
Theorem main_rejects_incomplete_command_line (argc optind : Z) (argv : list string)
    (gs : list getopt_call) (out : list line) (l : locals) :
  initConverters = inr tt →
  option_loop gs initial_locals = (out, Go l) →
  optind = argc ∨ (optind < argc - 2)%Z ∨ toolDefined l = false ∨ dbDefined l = false →
  exit (main argc argv gs optind) = Exit 1
  ∧ log (main argc argv gs optind) = [].
Proof.
  intros Hinit Hopts Hbad. unfold main. rewrite Hinit, Hopts.
  assert (Hret : ∃ out', check_arguments l optind argc = (out', Return 1)).
  { unfold check_arguments.
    destruct (bool_decide (optind = argc)) eqn:H1; [eauto|].
    destruct (bool_decide (optind < argc - 2)%Z) eqn:H2; [eauto|].
    destruct (bool_decide (t l = mergeDir) && bool_decide (optind < argc - 1)%Z); [eauto|].
    destruct (toolDefined l); simpl; [|eauto].
    destruct (dbDefined l); simpl; [|eauto].
    apply bool_decide_eq_false in H1, H2.
    destruct Hbad as [?|[?|[?|?]]]; done. }
  destruct Hret as [out' ->]. done.
Qed.

(** X19: merge-dir.  With both operands [main] rejects the command line
    with status 1; with the source alone the command line is accepted, the
    database is opened, and the program stops on the failed assertion without
    closing the database. *)
Theorem main_merge_dir (argc optind : Z) (argv : list string)
    (gs : list getopt_call) (out : list line) (l : locals) (db : DB) :
  initConverters = inr tt →
  option_loop gs initial_locals = (out, Go l) →
  t l = mergeDir → toolDefined l = true → dbDefined l = true →
  FileDB_open (default "" (dbPath l)) true = inr db →
  NDEBUG = false →
  (optind = argc - 2 → exit (main argc argv gs optind) = Exit 1)%Z
  ∧ (optind = argc - 1 →
       exit (main argc argv gs optind) = Aborted
       ∧ log (main argc argv gs optind) = [])%Z.
Proof.
  intros Hinit Hopts Ht Htd Hdd Hopen Hnd. unfold main. rewrite Hinit, Hopts.
  unfold check_arguments. rewrite Ht, Htd, Hdd. split; intros ->.
  - rewrite !bool_decide_false by lia.
    rewrite (bool_decide_true (mergeDir = mergeDir)) by done.
    rewrite bool_decide_true by lia. done.
  - rewrite !bool_decide_false by lia. simpl.
    unfold with_database, run_tool. rewrite Hopen, Ht, Hnd.
    rewrite bool_decide_false by lia. done.
Qed.
End CommandLine.

Lemma main_closes_database_on_exception_witness :
  Main.log (Main.main (H := MainFixtures.throwing_tools) 4
              ["mirror"; "--tool=verify-dir"; "--db=files.db"; "tree"]
              Fixtures.verify_command_line 3)
  = [LogEntry Debug [Lit "closed"]].
Proof.
  refine (proj1 (main_closes_database_on_exception (C := MainFixtures.throwing_tools)
            4 3 ["mirror"; "--tool=verify-dir"; "--db=files.db"; "tree"]
            Fixtures.verify_command_line [] []
            (Main.mkLocals Main.verifyDir true (Some "files.db") true) 0 (ThrowInt 5)
            eq_refl eq_refl eq_refl (or_intror eq_refl) eq_refl eq_refl)).
Defined.

Lemma main_help_or_version_witness :
  Main.exit (Main.main (H := Fixtures.reporting_tools) 1 ["mirror"]
               ([] ++ MainFixtures.help_option :: Fixtures.verify_command_line) 1)
  = Main.Exit 0.
Proof.
  refine (proj1 (main_help_or_version (C := Fixtures.reporting_tools) 1 1 ["mirror"]
            [] Fixtures.verify_command_line MainFixtures.help_option []
            Main.initial_locals eq_refl eq_refl (or_introl eq_refl))).
Defined.

Lemma main_rejects_incomplete_command_line_witness :
  Main.exit (Main.main (H := Fixtures.reporting_tools) 3
               ["mirror"; "--tool=verify-dir"; "--db=files.db"]
               Fixtures.verify_command_line 3)
  = Main.Exit 1.
Proof.
  refine (proj1 (main_rejects_incomplete_command_line (C := Fixtures.reporting_tools)
            3 3 ["mirror"; "--tool=verify-dir"; "--db=files.db"]
            Fixtures.verify_command_line []
            (Main.mkLocals Main.verifyDir true (Some "files.db") true)
            eq_refl eq_refl (or_introl eq_refl))).
Defined.

Lemma main_merge_dir_witness :
  Main.exit (Main.main (H := Fixtures.reporting_tools) 5
               ["mirror"; "--tool=merge-dir"; "--db=files.db"; "from"; "to"]
               MainFixtures.merge_command_line 3)
  = Main.Exit 1.
Proof.
  refine (proj1 (main_merge_dir (C := Fixtures.reporting_tools) 5 3
            ["mirror"; "--tool=merge-dir"; "--db=files.db"; "from"; "to"]
            MainFixtures.merge_command_line []
            (Main.mkLocals Main.mergeDir true (Some "files.db") true) 0
            eq_refl eq_refl eq_refl eq_refl eq_refl eq_refl eq_refl) eq_refl).
Defined.

(** ** The paths of the walk *)
Section Paths.

Lemma string_app_assoc (a b c : string) : (a +:+ b) +:+ c = a +:+ (b +:+ c).
Proof.
  induction a as [|x a IH]; [done|].
  change (String x ((a +:+ b) +:+ c) = String x (a +:+ (b +:+ c))).
  by rewrite IH.
Qed.

Lemma joined_step (root relDir name : string) :
  name ≠ "" →
  joined root (relative_path relDir name) = absolute_path (joined root relDir) name.
Proof.
  intros Hname. unfold joined, relative_path, absolute_path.
  destruct relDir as [|x relDir].
  - by destruct name.
  - change (String x relDir +:+ "/" +:+ name)
      with (String x (relDir +:+ "/" +:+ name)).
    by rewrite !string_app_assoc.
Qed.

Lemma sends_bind P (m1 m2 : M (list call) unit) :
  sends P m1 → sends P m2 → sends P (bind m1 (λ _, m2)).
Proof.
  intros H1 H2 s. destruct (H1 s) as (new1 & Hf1 & Hp1).
  unfold bind. destruct (result (m1 s)) as [e|[]]; cbn [final].
  - by exists new1.
  - rewrite Hf1. destruct (H2 (s ++ new1)) as (new2 & Hf2 & Hp2).
    exists (new1 ++ new2). rewrite Hf2, app_assoc. split; [done|].
    by apply Forall_app.
Qed.

Lemma sends_nothing P (m : M (list call) unit) :
  (∀ s, final (m s) = s) → sends P m.
Proof. intros Hm s. exists []. by rewrite Hm, app_nil_r. Qed.

Lemma sends_record P c : P c → sends P (record_call c).
Proof. intros Hc s. exists [c]. split; [done|]. by constructor. Qed.

Lemma sends_for_each {A} P (body : A → M (list call) unit) (xs : list A) :
  Forall (λ x, sends P (body x)) xs → sends P (for_each body xs).
Proof.
  induction 1 as [|x xs Hx _ IH]; [by apply sends_nothing|].
  rewrite for_each_cons. by apply sends_bind.
Qed.

Lemma sends_scan (root : string) :
  (∀ d, named d = true → ∀ rootDir relDir, rootDir = joined root relDir →
        sends (paths_agree root) (@scanFiles _ recorder rootDir relDir d))
  ∧ (∀ e, named_entry e = true → ∀ rootDir relDir, rootDir = joined root relDir →
          sends (paths_agree root) (@scanEntry _ recorder rootDir relDir e)).
Proof.
  apply dir_dirent_ind.
  - intros errno _ rootDir relDir _. simpl.
    apply sends_bind; [by apply sends_nothing|].
    destruct (bool_decide _); by apply sends_nothing.
  - intros entries IH Hnamed rootDir relDir Hpath.
    rewrite (scanFiles_opened (EH := recorder)).
    apply sends_bind; [by apply sends_nothing|].
    apply sends_bind; [by apply sends_record|].
    apply sends_bind; [|by apply sends_record].
    apply sends_for_each, Forall_forall. intros e He.
    eapply Forall_forall in IH; [|exact He]. apply IH; [|done].
    simpl in Hnamed. rewrite forallb_forall in Hnamed.
    apply Hnamed. by apply list_elem_of_In.
  - intros name _ rootDir relDir Hpath. by apply sends_record.
  - intros name sub IH Hnamed rootDir relDir Hpath. simpl in *.
    apply andb_prop in Hnamed as [Hname Hsub].
    destruct (is_dot_or_dotdot name); [by apply sends_nothing|].
    apply IH; [done|]. rewrite Hpath. symmetry. apply joined_step.
    apply negb_true_iff, bool_decide_eq_false in Hname. done.
  - intros d_type name _ rootDir relDir _. by apply sends_nothing.
Qed.

(** X20: the file that is read is the file that is reported.  In a walk of
    [root] whose subdirectories all have a name, every [file] call receives
    as directory path the path [root], or [root/relDir], of the relative
    directory it receives, so the absolute path and the relative path the
    observer builds from them name the same file. *)
Theorem walker_paths_agree (root : string) (d : dir) (s : list call) :
  named d = true →
  ∃ new, final (@scanFiles _ recorder root "" d s) = s ++ new
    ∧ Forall (paths_agree root) new
    ∧ ∀ rootDir relDir name, File rootDir relDir name ∈ new →
        absolute_path rootDir name = joined root (relative_path relDir name)
        ∨ name = "".
Proof.
  intros Hnamed.
  destruct (proj1 (sends_scan root) d Hnamed root "" eq_refl s) as (new & Hf & Hp).
  exists new. split_and!; [done|done|].
  intros rootDir relDir name Hin.
  rewrite Forall_forall in Hp. specialize (Hp _ Hin). simpl in Hp.
  destruct (decide (name = "")) as [->|Hname]; [by right|left].
  by rewrite Hp, joined_step.
Qed.
End Paths.

Lemma walker_paths_agree_witness :
  ∃ new, final (@scanFiles _ recorder "root" "" (OpenDirOk Fixtures.mixed_entries) [])
         = [] ++ new
    ∧ Forall (paths_agree "root") new.
Proof.
  destruct (walker_paths_agree "root" (OpenDirOk Fixtures.mixed_entries) [] eq_refl)
    as (new & Hf & Hp & _).
  exists new. by split.
Defined.

(** ** Options [main] does not accept *)
Section RejectedOptions.
Import Main.
Context {C : Collaborators}.

(** X21: an option that is not accepted ends the program.  A tool name
    other than the three known ones, or an option value that is none of
    [d], [h], [t], [v] (the [?] of an unrecognised option among them), makes
    [main] exit with status 1 without opening the database, and the options
    that follow are not examined. *)
Theorem main_rejects_option (argc optind : Z) (argv : list string)
    (gs1 gs2 : list getopt_call) (g : getopt_call) (out : list line) (l : locals) :
  initConverters = inr tt →
  option_loop gs1 initial_locals = (out, Go l) →
  (c g = chr "t" ∧ optarg g ∉ ["create-db"; "verify-dir"; "merge-dir"])
  ∨ c g ∉ [chr "d"; chr "h"; chr "t"; chr "v"] →
  exit (main argc argv (gs1 ++ g :: gs2) optind) = Exit 1
  ∧ log (main argc argv (gs1 ++ g :: gs2) optind) = []
  ∧ main argc argv (gs1 ++ g :: gs2) optind = main argc argv (gs1 ++ [g]) optind.
Proof.
  intros Hinit Hopts Hg. unfold main.
  rewrite Hinit, !(option_loop_app gs1 _ _ _ _ Hopts).
  assert (Hret : ∃ out', handle_option g l = (out', Return 1)).
  { unfold handle_option. destruct Hg as [[Hc Harg]|Hc].
    - rewrite Hc. rewrite bool_decide_false by done.
      rewrite bool_decide_false by done. rewrite bool_decide_true by done.
      rewrite !not_elem_of_cons in Harg. destruct Harg as (? & ? & ? & _).
      rewrite !bool_decide_false by done. eauto.
    - rewrite !not_elem_of_cons in Hc. destruct Hc as (? & ? & ? & ? & _).
      rewrite !bool_decide_false by done.
      destruct (bool_decide (c g = chr "?")); eauto. }
  destruct Hret as [out' Hret]. simpl. rewrite Hret. done.
Qed.
End RejectedOptions.

Lemma main_rejects_option_witness :
  Main.exit (Main.main (H := Fixtures.reporting_tools) 4
               ["mirror"; "--tool=sync-dir"; "--db=files.db"; "tree"]
               ([] ++ MoreMainFixtures.unknown_tool :: Fixtures.verify_command_line) 3)
  = Main.Exit 1.
Proof.
  refine (proj1 (main_rejects_option (C := Fixtures.reporting_tools) 4 3
            ["mirror"; "--tool=sync-dir"; "--db=files.db"; "tree"]
            [] Fixtures.verify_command_line MoreMainFixtures.unknown_tool []
            Main.initial_locals eq_refl eq_refl (or_introl (conj eq_refl _)))).
  rewrite !not_elem_of_cons. split_and!; try done. apply not_elem_of_nil.
Defined.

(** ** A file that cannot be read *)
Section UnreadableFile.
Context {X : External}.

Lemma lookup_erase_names (names : list string) (c : gmap string FileRecord)
    (key : string) :
  key ∉ convertToUtf8 <$> names → erase_names names c !! key = c !! key.
Proof.
  revert c. induction names as [|n names IH]; intros c Hkey; [done|].
  rewrite fmap_cons, not_elem_of_cons in Hkey. destruct Hkey as [Hn Hrest].
  unfold erase_names. simpl. fold (erase_names names (delete (convertToUtf8 n) c)).
  rewrite IH by done. by apply lookup_delete_ne.
Qed.

(** X22: a recorded file whose metadata cannot be read stops the walk.  When
    the entries before it are walked without an exception and leave its
    record in place, the walk throws what [fillFileRecord] throws for the
    file; the entries after it are not visited; and the log is the log of
    the walk of the entries before it, without the closing reports of the
    files of this directory that are missing, followed by the line for the
    file: these reports are never written. *)
Theorem unreadable_file_stops_walk (rootDir relDir name : string)
    (pre rest : list dirent) (h : VerifyState) (expected : FileRecord)
    (e : exception) :
  let E := (getFiles (dbRef h) (convertToUtf8 relDir)).2 in
  result (scanFiles rootDir relDir (OpenDirOk pre) h) = inr tt →
  E !! convertToUtf8 name = Some expected →
  convertToUtf8 name ∉ convertToUtf8 <$> regular_names pre →
  fillFileRecord (absolute_path rootDir name) = inl e →
  let o := scanFiles rootDir relDir (OpenDirOk (pre ++ DT_REG name :: rest)) h in
  result o = inl e
  ∧ o = scanFiles rootDir relDir (OpenDirOk (pre ++ [DT_REG name])) h
  ∧ ∃ before,
      emitted (scanFiles rootDir relDir (OpenDirOk pre) h)
      = before ++ (file_not_found relDir
                     <$> map_to_list (erase_names (regular_names pre) E))
      ∧ emitted o = before ++ [checking name].
Proof.
  intros E Hpre HE Hkey Hfill.
  set (h1 := mkVerifyState (dbDirs h ∖ {[convertToUtf8 relDir]}) (E :: ctxs h)
               (getFiles (dbRef h) (convertToUtf8 relDir)).1).
  set (P := for_each (scanEntry rootDir relDir) pre h1).
  assert (Hscan : ∀ entries,
            scanFiles rootDir relDir (OpenDirOk entries) h
            = Outcome
                (scanning rootDir
                   :: emitted (bind (for_each (scanEntry rootDir relDir) entries)
                                 (λ _, verify_dirEnd relDir) h1))
                (final (bind (for_each (scanEntry rootDir relDir) entries)
                          (λ _, verify_dirEnd relDir) h1))
                (result (bind (for_each (scanEntry rootDir relDir) entries)
                           (λ _, verify_dirEnd relDir) h1))).
  { intros entries. rewrite scanFiles_ok.
    erewrite bind_run by reflexivity.
    erewrite bind_run by apply verify_dirStart_run. done. }
  assert (HP : result P = inr tt).
  { rewrite Hscan in Hpre. cbn [result] in Hpre.
    destruct (result P) as [e'|[]] eqn:Hr; [|done].
    by rewrite (bind_throw _ _ _ _ Hr) in Hpre. }
  assert (Htop : ctxs (final P) = erase_names (regular_names pre) E :: ctxs h).
  { assert (Hloop : walks (⋃ (entered_under relDir <$> pre)) (regular_names pre)
                      (for_each (scanEntry rootDir relDir) pre)).
    { rewrite <- regular_names_concat. apply walks_for_each.
      apply Forall_forall. intros en _. apply (proj2 walks_scan). }
    destruct (Hloop h1) as [Hs _]. destruct (Hs HP) as [_ Hc]. exact Hc. }
  assert (Hfile : verify_file rootDir relDir name (final P)
                  = Outcome [checking name] (final P) (inl e)).
  { rewrite (verify_file_run _ _ _ _ _ _ Htop).
    by rewrite lookup_erase_names, HE, Hfill. }
  assert (Hstop : ∀ rest',
            bind (for_each (scanEntry rootDir relDir) (pre ++ DT_REG name :: rest'))
              (λ _, verify_dirEnd relDir) h1
            = Outcome (emitted P ++ [checking name]) (final P) (inl e)).
  { intros rest'.
    assert (Hloop : for_each (scanEntry rootDir relDir) (pre ++ DT_REG name :: rest') h1
                    = Outcome (emitted P ++ [checking name]) (final P) (inl e)).
    { rewrite for_each_app. fold P. rewrite (bind_return _ _ _ _ HP).
      rewrite for_each_cons.
      change (scanEntry rootDir relDir (DT_REG name))
        with (verify_file rootDir relDir name).
      by rewrite (bind_run_throw _ _ _ _ _ _ Hfile). }
    by rewrite (bind_run_throw _ _ _ _ _ _ Hloop). }
  cbn zeta. rewrite !Hscan, !Hstop. cbn [emitted final result].
  split_and!; [done|done|].
  exists (scanning rootDir :: emitted P).
  split; [|done].
  fold P. rewrite (bind_return _ _ _ _ HP).
  rewrite (verify_dirEnd_emitted _ _ _ _ Htop). done.
Qed.
End UnreadableFile.

Lemma unreadable_file_stops_walk_witness :
  let X := Fixtures.simple MoreFixtures.unreadable in
  let h := initial_observer MoreFixtures.renamed_store in
  result (scanFiles "root" "" (OpenDirOk ([] ++ DT_REG "old" :: [DT_REG "z"])) h)
  = inl (OpenFileError 13).
Proof.
  intros X h.
  assert (Hpre : result (scanFiles "root" "" (OpenDirOk []) h) = inr tt)
    by (vm_compute; reflexivity).
  assert (HE : (getFiles (dbRef h) (convertToUtf8 "")).2 !! convertToUtf8 "old"
               = Some Fixtures.recorded_a) by (vm_compute; reflexivity).
  assert (Hkey : convertToUtf8 "old" ∉ convertToUtf8 <$> regular_names [])
    by apply not_elem_of_nil.
  exact (proj1 (unreadable_file_stops_walk (X := X) "root" "" "old" [] [DT_REG "z"] h
                  Fixtures.recorded_a (OpenFileError 13) Hpre HE Hkey eq_refl)).
Defined.

(** ** The reports of one directory in the log of its walk *)
Section DirectoryReports.
Context {X : External}.




















End DirectoryReports.


(** ** The kind of a record in the visit of a file *)
Section KindInVisit.
Context {X : External}.

(** C3 (the code): the visit of a file by the observer of [verifyDir] does
    not look at the kind of the two records.  For a recorded entry and a
    live file of different kinds it writes no kind mismatch and compares size,
    timestamp and digest all the same: the log is the line for the file
    followed by the mismatch of every field that differs, each field that
    differs is reported, and the record is erased.  The handler of [main],
    which the walk never calls, is where the kinds are compared: for the same
    two records [checkFileMismatch] writes the kind mismatch alone. *)
Theorem visit_compares_across_kinds (rootDir relDir fileName : string)
    (h : VerifyState) (c : gmap string FileRecord)
    (below : list (gmap string FileRecord)) (expected actual : FileRecord) :
  ctxs h = c :: below →
  c !! convertToUtf8 fileName = Some expected →
  fillFileRecord (absolute_path rootDir fileName) = inr actual →
  type expected ≠ type actual →
  let o := verify_file rootDir relDir fileName h in
  let p := relative_path relDir fileName in
  result o = inr tt
  ∧ emitted o = checking fileName :: field_mismatches p expected actual
  ∧ count is_kind_mismatch (emitted o) = 0
  ∧ (fileSize expected ≠ fileSize actual →
       size_mismatch p expected actual ∈ emitted o)
  ∧ (lastModifiedTS expected ≠ lastModifiedTS actual →
       timestamp_mismatch p expected actual ∈ emitted o)
  ∧ (take MD5_DIGEST_LENGTH (md5Digest actual) ≠ take MD5_DIGEST_LENGTH (md5Digest expected) →
       digest_mismatch p expected actual ∈ emitted o)
  ∧ ctxs (final o) = delete (convertToUtf8 fileName) c :: below
  ∧ ∀ (S : Type) (s : S),
      emitted (VerifyDirMismatchHandler.checkFileMismatch p expected actual s)
      = [VerifyDirMismatchHandler.type_mismatch p expected actual].
Proof.
  intros Hc Hl Hf Hkind. cbn zeta.
  rewrite (verify_file_run _ _ _ _ _ _ Hc), Hl, Hf. cbn [result emitted final ctxs].
  split_and!; [done|done| | | | |done|].
  - unfold count. rewrite filter_cons_False by done.
    unfold field_mismatches. repeat case_match; reflexivity.
  - intros Hd. apply elem_of_cons. right.
    apply elem_of_field_mismatches. left. done.
  - intros Hd. apply elem_of_cons. right.
    apply elem_of_field_mismatches. right. left. done.
  - intros Hd. apply elem_of_cons. right.
    apply elem_of_field_mismatches. right. right. done.
  - intros S s. by apply checkFileMismatch_kind_differs.
Qed.
End KindInVisit.

Lemma visit_compares_across_kinds_witness :
  let X := Fixtures.simple (Fixtures.always Fixtures.live_a) in
  let h := mkVerifyState ∅ [{["a" := Fixtures.recorded_dir]}] (Fixtures.mkSimpleDB ∅ ∅) in
  emitted (verify_file "root" "" "a" h)
  = checking "a" :: field_mismatches (relative_path "" "a")
                      Fixtures.recorded_dir Fixtures.live_a.
Proof.
  intros X h.
  assert (Hkind : type Fixtures.recorded_dir ≠ type Fixtures.live_a)
    by (simpl; discriminate).
  exact (proj1 (proj2 (visit_compares_across_kinds (X := X) "root" "" "a" h
                         {["a" := Fixtures.recorded_dir]} []
                         Fixtures.recorded_dir Fixtures.live_a
                         eq_refl eq_refl eq_refl Hkind))).
Defined.
